(** * vlcc: the VLC remote-control session (src/vlcc/vlcc.py)

    A shallow embedding of the protocol interpreter of [main]: the player
    state container, the status-change rule table, the command queue shared
    with the querier thread, the line classifier and the read loop.

    Python objects that the closures of [main] share ([player], [qthread],
    the telnet session [t], standard output) become components of an explicit
    world that every function threads; exceptions and a blocking
    [Lock.acquire] are outcomes of a small state-and-exception monad. *)

From Stdlib Require Import List Ascii String ZArith NArith Bool Arith Lia.
From Stdlib Require DecimalString.
Import ListNotations.

Local Open Scope list_scope.
Local Open Scope char_scope.

(* ================================================================== *)
(** ** Text *)

(** A Python [str] obtained from [bytes.decode('ascii')], and a [bytes]
    value, are both lists of 8-bit characters.  So is a string of the
    command line whose characters are all below U+0100; the others are
    outside this model. *)
Definition text := list ascii.

Definition str (s : string) : text := list_ascii_of_string s.

Definition newline : ascii := "010".
Definition dquote : ascii := "034".

Fixpoint text_eqb (a b : text) : bool :=
  match a, b with
  | [], [] => true
  | x :: a', y :: b' => Ascii.eqb x y && text_eqb a' b'
  | _, _ => false
  end.

Definition between (lo hi c : ascii) : bool :=
  (N_of_ascii lo <=? N_of_ascii c)%N && (N_of_ascii c <=? N_of_ascii hi)%N.

Definition is_digit (c : ascii) : bool := between "0" "9" c.

(** [str.isspace] on code points below 256; this is also what [\s] matches in
    a [str] pattern and what [str.strip()] removes. *)
Definition is_space (c : ascii) : bool :=
  between "009" "013" c || between "028" "032" c
  || Ascii.eqb c "133" || Ascii.eqb c "160".

(** The C-locale whitespace that [int()] skips around an ASCII literal. *)
Definition c_isspace (c : ascii) : bool :=
  between "009" "013" c || Ascii.eqb c " ".

Definition is_ascii (c : ascii) : bool := (N_of_ascii c <? 128)%N.

Fixpoint lstrip_with (p : ascii -> bool) (s : text) : text :=
  match s with
  | c :: s' => if p c then lstrip_with p s' else s
  | [] => []
  end.

Definition strip_with (p : ascii -> bool) (s : text) : text :=
  rev (lstrip_with p (rev (lstrip_with p s))).

(** [s.strip()] *)
Definition strip (s : text) : text := strip_with is_space s.

(** [s.replace(a, b)] for single characters [a] and [b]. *)
Definition replace (a b : ascii) (s : text) : text :=
  map (fun c => if Ascii.eqb c a then b else c) s.

(** [rest] when [s = p ++ rest]. *)
Fixpoint strip_prefix (p s : text) : option text :=
  match p, s with
  | [], _ => Some s
  | x :: p', y :: s' => if Ascii.eqb x y then strip_prefix p' s' else None
  | _ :: _, [] => None
  end.

(* ================================================================== *)
(** ** Regular expressions

    The fragment of Python's [re] that the program's patterns use, with the
    matching order of a backtracking engine: alternatives are tried in
    priority order (greedy repetition longest first, lazy repetition shortest
    first) and the first complete match wins.  Repetition is only applied to
    single-character classes, as in every pattern of the source. *)
Module Re.

Inductive regex : Type :=
| Caret                                   (* ^ *)
| Dollar                                  (* $ *)
| Lit (l : text)                          (* literal text *)
| Class (p : ascii -> bool)               (* [...] or . *)
| Star (p : ascii -> bool)                (* c* *)
| Plus (p : ascii -> bool)                (* c+ *)
| StarLazy (p : ascii -> bool)            (* c*? *)
| Opt (r : regex)                         (* r? *)
| Group (i : nat) (r : regex)             (* ( r ), group number i *)
| Cat (r1 r2 : regex).

(** Groups that took part in the match, most recently closed first. *)
Definition captures := list (nat * text).

(** [.] without DOTALL *)
Definition dot (c : ascii) : bool := negb (Ascii.eqb c newline).

Section Engine.
Context {R : Type}.

Fixpoint star_greedy (p : ascii -> bool) (s : text)
         (k : text -> option R) : option R :=
  match s with
  | c :: s' =>
      if p c then
        match star_greedy p s' k with
        | Some m => Some m
        | None => k s
        end
      else k s
  | [] => k s
  end.

Fixpoint star_lazy (p : ascii -> bool) (s : text)
         (k : text -> option R) : option R :=
  match k s with
  | Some m => Some m
  | None =>
      match s with
      | c :: s' => if p c then star_lazy p s' k else None
      | [] => None
      end
  end.
End Engine.

(** [run n r s caps k]: match [r] at the front of [s], the unread rest of
    a subject of length [n], then continue with [k]. *)
Fixpoint run (n : nat) (r : regex) (s : text) (caps : captures)
         (k : text -> captures -> option captures) : option captures :=
  match r with
  | Caret => if Nat.eqb (List.length s) n then k s caps else None
  | Dollar =>
      (* at the end, or just before a newline that ends the subject *)
      match s with
      | [] => k s caps
      | [c] => if Ascii.eqb c newline then k s caps else None
      | _ => None
      end
  | Lit l =>
      match strip_prefix l s with
      | Some s' => k s' caps
      | None => None
      end
  | Class p =>
      match s with
      | c :: s' => if p c then k s' caps else None
      | [] => None
      end
  | Star p => star_greedy p s (fun s' => k s' caps)
  | Plus p =>
      match s with
      | c :: s' => if p c then star_greedy p s' (fun s'' => k s'' caps) else None
      | [] => None
      end
  | StarLazy p => star_lazy p s (fun s' => k s' caps)
  | Opt r' =>
      match run n r' s caps k with
      | Some m => Some m
      | None => k s caps
      end
  | Group i r' =>
      run n r' s caps
          (fun s' caps' => k s' ((i, firstn (List.length s - List.length s') s) :: caps'))
  | Cat r1 r2 => run n r1 s caps (fun s' caps' => run n r2 s' caps' k)
  end.

(** [pattern.match(s)]: anchored at the start, need not reach the end. *)
Definition re_match (r : regex) (s : text) : option captures :=
  run (List.length s) r s [] (fun _ caps => Some caps).

(** [m.group(i)]; [None] when the group did not take part. *)
Fixpoint group (i : nat) (m : captures) : option text :=
  match m with
  | [] => None
  | (j, t) :: m' => if Nat.eqb i j then Some t else group i m'
  end.

End Re.
Import Re.

Declare Scope re_scope.
Delimit Scope re_scope with re.
Infix "+++" := Cat (at level 60, right associativity) : re_scope.

(* ================================================================== *)
(** ** Outcomes of a call

    A call returns, raises, or never returns because it waits for a
    [threading.Lock] that nobody releases. *)

Inductive exn : Type :=
| IndexError
| ValueError
| TypeError
| RuntimeError
| UnicodeDecodeError
| UnicodeEncodeError
| OSError
| QueryValueError (query value : text).      (* class QueryValueError(ValueError) *)

Inductive res (A : Type) : Type :=
| Ret (a : A)
| Raise (e : exn)
| Block.
Arguments Ret {A} a.
Arguments Raise {A} e.
Arguments Block {A}.

Definition M (S A : Type) : Type := S -> res A * S.

Definition ret {S A} (a : A) : M S A := fun s => (Ret a, s).
Definition raise {S A} (e : exn) : M S A := fun s => (Raise e, s).
Definition block {S A} : M S A := fun s => (Block, s).
Definition gets {S A} (f : S -> A) : M S A := fun s => (Ret (f s), s).
Definition modify {S} (f : S -> S) : M S unit := fun s => (Ret tt, f s).

Definition bind {S A B} (m : M S A) (k : A -> M S B) : M S B :=
  fun s =>
    match m s with
    | (Ret a, s') => k a s'
    | (Raise e, s') => (Raise e, s')
    | (Block, s') => (Block, s')
    end.

(** [try: m  except ...: h e]; [h e = None] when no clause catches [e]. *)
Definition try_except {S A} (m : M S A) (h : exn -> option (M S A)) : M S A :=
  fun s =>
    match m s with
    | (Raise e, s') =>
        match h e with
        | Some handler => handler s'
        | None => (Raise e, s')
        end
    | other => other
    end.

Declare Scope monad_scope.
Delimit Scope monad_scope with monad.
Notation "x <- m ;; k" := (bind m (fun x => k))
  (at level 61, m at next level, right associativity) : monad_scope.
Notation "m ;; k" := (bind m (fun _ => k))
  (at level 61, right associativity) : monad_scope.
Local Open Scope monad_scope.

(* ================================================================== *)
(** ** Player state *)

Module PlayerState.
(** [class PlayerState(Enum)]; [end] is written [end_]. *)
Inductive t : Type := stop | play | pause | end_.

Definition value (s : t) : Z :=
  match s with stop => 0 | play => 2 | pause => 3 | end_ => 4 end%Z.

(** [str(s)] *)
Definition to_text (s : t) : text :=
  match s with
  | stop => str "PlayerState.stop"
  | play => str "PlayerState.play"
  | pause => str "PlayerState.pause"
  | end_ => str "PlayerState.end"
  end.

Definition eqb (a b : t) : bool :=
  match a, b with
  | stop, stop | play, play | pause, pause | end_, end_ => true
  | _, _ => false
  end.
End PlayerState.

(** The attributes of [class Player].  Every accessor takes and releases
    [state_lock] around a single read or write, so the lock is free between
    any two calls and is left out. *)
Record Player : Type := mkPlayer {
  _volume : Z;
  _video_title : text;
  _playstate : PlayerState.t;
  _curr_time : Z;
  _total_time : Z;
  _source : text
}.

(** [Player.__init__] *)
Definition Player_init : Player :=
  {| _volume := 0; _video_title := []; _playstate := PlayerState.stop;
     _curr_time := 0; _total_time := 0; _source := [] |}.

Definition with_volume (nv : Z) (p : Player) : Player :=
  mkPlayer nv (_video_title p) (_playstate p) (_curr_time p) (_total_time p) (_source p).
Definition with_video_title (nv : text) (p : Player) : Player :=
  mkPlayer (_volume p) nv (_playstate p) (_curr_time p) (_total_time p) (_source p).
Definition with_playstate (nv : PlayerState.t) (p : Player) : Player :=
  mkPlayer (_volume p) (_video_title p) nv (_curr_time p) (_total_time p) (_source p).
Definition with_curr_time (nv : Z) (p : Player) : Player :=
  mkPlayer (_volume p) (_video_title p) (_playstate p) nv (_total_time p) (_source p).
Definition with_total_time (nv : Z) (p : Player) : Player :=
  mkPlayer (_volume p) (_video_title p) (_playstate p) (_curr_time p) nv (_source p).
Definition with_source (nv : text) (p : Player) : Player :=
  mkPlayer (_volume p) (_video_title p) (_playstate p) (_curr_time p) (_total_time p) nv.

(** What the closures other than the queue share: the [player] object and
    standard output (one entry per [print]). *)
Record Env : Type := mkEnv {
  player : Player;
  stdout : list text
}.

Definition on_player (f : Player -> Player) : M Env unit :=
  modify (fun e => mkEnv (f (player e)) (stdout e)).

Definition print (s : text) : M Env unit :=
  modify (fun e => mkEnv (player e) (stdout e ++ [s])).

Definition set_volume (nv : Z) : M Env unit := on_player (with_volume nv).
Definition set_video_title (nv : text) : M Env unit := on_player (with_video_title nv).
Definition set_playstate (nv : PlayerState.t) : M Env unit :=
  on_player (with_playstate nv) ;;
  (* print('Playstate change: {0}', nv) prints both arguments *)
  print (str "Playstate change: {0} " ++ PlayerState.to_text nv).
Definition set_curr_time (nv : Z) : M Env unit := on_player (with_curr_time nv).
Definition set_total_time (nv : Z) : M Env unit := on_player (with_total_time nv).
Definition set_source (nv : text) : M Env unit := on_player (with_source nv).

Definition inc_curr_time_if_playing : M Env unit :=
  on_player (fun p =>
    if PlayerState.eqb (_playstate p) PlayerState.play
    then with_curr_time (_curr_time p + 1) p else p).

(* ================================================================== *)
(** ** [int(s)]

    What [int] does with a string depends on the interpreter that runs the
    program: since Python 3.6 single underscores may separate digits, and
    since 3.11 (and the security releases of 3.7 to 3.10) a string with more
    digits than [sys.get_int_max_str_digits()] is refused. *)

Record Interpreter : Type := mkInterpreter {
  (** [sys.get_int_max_str_digits()]; 0 when there is no limit.  (An
      interpreter refuses to set a limit between 1 and 639.) *)
  int_max_str_digits : nat;
  (** whether [int] accepts underscores between digits *)
  underscores : bool
}.

(** CPython 3.11 and 3.12 as they start. *)
Definition cpython_3_11 : Interpreter := mkInterpreter 4300 true.

(** CPython 3.3 to 3.5, the versions that setup.py names. *)
Definition cpython_3_5 : Interpreter := mkInterpreter 0 false.

Definition digit_val (c : ascii) : Z := (Z.of_N (N_of_ascii c) - 48)%Z.

(** The value of a run of decimal digits, most significant first. *)
Definition decimal (ds : text) : Z :=
  fold_left (fun acc c => (acc * 10 + digit_val c)%Z) ds 0%Z.

(** The integer that [s] spells in decimal notation, with a hyphen in front
    for a negative one: the reading of the Standard Library's
    [DecimalString]. *)
Definition spelled (s : text) : option Z :=
  option_map Z.of_int (DecimalString.NilZero.int_of_string (string_of_list_ascii s)).

(** The number of digits in [s]. *)
Definition digit_count (s : text) : nat := List.length (filter is_digit s).

(** The whitespace above U+007F (of the characters below U+0100): next
    line and no-break space.  [int] takes them for spaces. *)
Definition is_high_space (c : ascii) : bool :=
  Ascii.eqb c "133" || Ascii.eqb c "160".

Section Program.

(** The interpreter that runs the program. *)
Variable py : Interpreter.

(** [s] has more digits than the interpreter lets [int] read. *)
Definition too_long (s : text) : bool :=
  (0 <? int_max_str_digits py)%nat && (int_max_str_digits py <? digit_count s)%nat.

(** The digits of a literal: at least one, with single underscores between
    digits where the interpreter has them. *)
Fixpoint int_digits (acc : Z) (after_digit : bool) (s : text) : option Z :=
  match s with
  | [] => if after_digit then Some acc else None
  | c :: s' =>
      if is_digit c then int_digits (acc * 10 + digit_val c)%Z true s'
      else if Ascii.eqb c "_" then
             if underscores py && after_digit then int_digits acc false s' else None
      else None
  end.

(** [int(s)] in base 10, for a string [s] of characters below U+0100:
    optional whitespace around, an optional sign, then the digits.  [None]
    stands for [ValueError]. *)
Definition py_int (s : text) : option Z :=
  let s := strip_with c_isspace
             (map (fun c => if is_high_space c then " " else c) s) in
  let value :=
    match s with
    | c :: s' =>
        if Ascii.eqb c "-" then option_map Z.opp (int_digits 0 false s')
        else if Ascii.eqb c "+" then int_digits 0 false s'
        else int_digits 0 false (c :: s')
    | [] => None
    end in
  match value with
  | Some v => if too_long s then None else Some v
  | None => None
  end.

(** [int(x)] where [x] is a group of a match or a line. *)
Definition int_of {S} (x : option text) : M S Z :=
  match x with
  | None => raise TypeError
  | Some s =>
      match py_int s with
      | Some v => ret v
      | None => raise ValueError
      end
  end.

(* ================================================================== *)
(** ** Status changes *)

Local Open Scope re_scope.

(** The pattern compiled at line 74 of vlcc.py: start of subject, the text
    "status change: ( ", group 1 (any characters but newline, as few as
    possible), the text " )", optionally group 2 (a colon and any characters
    but newline), any whitespace, end of subject. *)
Definition status_change_line : regex :=
  Caret +++ Lit (str "status change: ( ") +++ Group 1 (StarLazy dot)
  +++ Lit (str " )") +++ Opt (Group 2 (Lit (str ":") +++ Star dot))
  +++ Star is_space +++ Dollar.

Definition sc_volume (mc : captures) : M Env unit :=
  v <- int_of (group 1 mc) ;;
  set_volume v.

Definition sc_playing (mc : captures) : M Env unit :=
  set_playstate PlayerState.play.

Definition sc_paused (mc : captures) : M Env unit :=
  set_playstate PlayerState.pause.

Definition sc_stopped (mc : captures) : M Env unit :=
  set_playstate PlayerState.end_.

Definition is_upper (c : ascii) : bool := between "A" "Z" c.

(** [sc_new_input]; no entry of [status_changes] refers to it. *)
Definition sc_new_input (mc : captures) : M Env unit :=
  match group 1 mc with
  | None => raise TypeError
  | Some src =>
      let src :=
        match re_match (Class is_upper +++ Lit (str ":/")) src with
        | Some _ => replace "/" "\" src
        | None => src
        end in
      set_source src ;;
      print (str "New input: " ++ src)
  end.

(** The pattern of the "volume" rule: start of subject, the text
    "audio volume: ", group 1 (an optional hyphen and one or more digits),
    end of subject. *)
Definition volume_re : regex :=
  Caret +++ Lit (str "audio volume: ")
  +++ Group 1 (Opt (Lit (str "-")) +++ Plus is_digit) +++ Dollar.

(** The pattern of the "input source" rule: the text "new input: file:///"
    and group 1, the rest of the payload. *)
Definition new_input_re : regex :=
  Caret +++ Lit (str "new input: file:///") +++ Group 1 (StarLazy dot) +++ Dollar.

Definition status_changes : list (text * regex * (captures -> M Env unit)) :=
  [ (str "volume", volume_re, sc_volume);
    (str "stop", Caret +++ Lit (str "stop state: 0") +++ Dollar, sc_stopped);
    (str "play", Caret +++ Lit (str "play state: 2") +++ Dollar, sc_playing);
    (str "play", Caret +++ Lit (str "play state: 3") +++ Dollar, sc_playing);
    (str "play", Caret +++ Lit (str "play state: 4") +++ Dollar, sc_playing);
    (str "pause", Caret +++ Lit (str "pause state: 3") +++ Dollar, sc_paused);
    (str "stop", Caret +++ Lit (str "pause state: 4") +++ Dollar, sc_stopped);
    (str "input source", new_input_re, sc_playing) ].

(** The [for name, check, func in status_changes] loop of the read loop:
    the first rule whose pattern matches runs, and the result tells whether
    one did. *)
Fixpoint first_match (rules : list (text * regex * (captures -> M Env unit)))
         (payload : text) : M Env bool :=
  match rules with
  | [] => ret false
  | (_, check, func) :: rest =>
      match re_match check payload with
      | Some mc => func mc ;; ret true
      | None => first_match rest payload
      end
  end.

(** What the read loop does with [m.group(1)] of a status-change line. *)
Definition status_change (payload : text) : M Env unit :=
  matched <- first_match status_changes payload ;;
  if matched : bool then ret tt
  else print (str "Unmatched status change: " ++ payload).

(* ================================================================== *)
(** ** The command queue and the querier thread *)

(** A queued callback is a closure over [player] and standard output. *)
Definition callback : Type := text -> M Env unit.

(** The fields of [QuerierThread] that change; [data_lock] is [true] while
    some thread holds the lock. *)
Record QuerierThread : Type := mkQuerierThread {
  data_lock : bool;
  query_queue : list (text * callback);
  ready_to_query : bool
}.

(** [QuerierThread.__init__] *)
Definition QuerierThread_init : QuerierThread :=
  {| data_lock := false; query_queue := []; ready_to_query := false |}.

(** Everything the functions of [main] share; [wire] lists the byte strings
    written to the telnet session [t] (by the calls of [write] that
    returned), oldest first. *)
Record World : Type := mkWorld {
  env : Env;
  qthread : QuerierThread;
  wire : list text
}.

Definition initial_world : World :=
  {| env := mkEnv Player_init []; qthread := QuerierThread_init; wire := [] |}.

(** Run code that only touches [player] and standard output. *)
Definition in_env {A} (m : M Env A) : M World A :=
  fun w =>
    let (r, e) := m (env w) in
    (r, mkWorld e (qthread w) (wire w)).

Definition on_qthread (f : QuerierThread -> QuerierThread) : M World unit :=
  modify (fun w => mkWorld (env w) (f (qthread w)) (wire w)).

(** [Lock.acquire()]: waits for ever when the lock is never released. *)
Definition lock : M World unit :=
  fun w =>
    if data_lock (qthread w) then (Block, w)
    else on_qthread (fun q => mkQuerierThread true (query_queue q) (ready_to_query q)) w.

(** [Lock.release()]: raises [RuntimeError] on a lock that is not held. *)
Definition unlock : M World unit :=
  fun w =>
    if data_lock (qthread w)
    then on_qthread (fun q => mkQuerierThread false (query_queue q) (ready_to_query q)) w
    else (Raise RuntimeError, w).

Definition set_query_queue (l : list (text * callback)) : M World unit :=
  on_qthread (fun q => mkQuerierThread (data_lock q) l (ready_to_query q)).

Definition set_ready_to_query (b : bool) : M World unit :=
  on_qthread (fun q => mkQuerierThread (data_lock q) (query_queue q) b).

(** What a call of [t.write] does: it returns with the bytes written, or
    raises [OSError] (the connection is gone), taken to have written
    nothing. *)
Inductive write_result : Type :=
| Written
| WriteFails.

(** [QuerierThread.send]: [self.t.write((d + '\n').encode('ascii'))], where
    the write does [wr]. *)
Definition send (wr : write_result) (d : text) : M World unit :=
  let line := d ++ [newline] in
  if forallb is_ascii line
  then
    match wr with
    | Written => modify (fun w => mkWorld (env w) (qthread w) (wire w ++ [line]))
    | WriteFails => raise OSError
    end
  else raise UnicodeEncodeError.

(** One turn of the [while self.running] loop of [QuerierThread.run]
    (the quarter-second sleep apart), in which a write, if there is one,
    does [wr]. *)
Definition run_iteration (wr : write_result) : M World unit :=
  lock ;;
  q <- gets qthread ;;
  (if ready_to_query q && (0 <? List.length (query_queue q))%nat then
     set_ready_to_query false ;;
     match query_queue q with
     | data :: _ =>
         send wr (fst data) ;;
         in_env (print (str "Sent query: " ++ fst data))
     | [] => raise IndexError
     end
   else ret tt) ;;
  unlock.

Definition is_alpha (c : ascii) : bool := between "a" "z" c || between "A" "Z" c.

(** The class of the first group of [query_return_line_re]: a letter, an
    underscore or a hyphen. *)
Definition is_name_char (c : ascii) : bool :=
  is_alpha c || Ascii.eqb c "_" || Ascii.eqb c "-".

(** The pattern compiled at line 265 of vlcc.py: start of subject, group 1
    (one or more name characters), the text ": returned ", group 2 (one or
    more digits), any characters but newline, end of subject. *)
Definition query_return_line_re : regex :=
  Caret +++ Group 1 (Plus is_name_char) +++ Lit (str ": returned ")
  +++ Group 2 (Plus is_digit) +++ Star dot +++ Dollar.

Definition query_return_line (line : text) : M World bool :=
  match re_match query_return_line_re line with
  | Some m =>
      match group 1 m with
      | None => raise TypeError
      | Some query_name =>
          lock ;;
          q <- gets qthread ;;
          (if (0 <? List.length (query_queue q))%nat then
             match query_queue q with
             | (name, _) :: rest =>
                 if text_eqb name query_name then
                   in_env (print (str "QRL removing " ++ query_name)) ;;
                   set_query_queue rest ;;              (* pop(0) *)
                   set_ready_to_query true
                 else ret tt
             | [] => raise IndexError
             end
           else ret tt) ;;
          unlock ;;
          ret true
      end
  | None => ret false
  end.

Definition queue_query (query_str : text) (cb : callback) : M World unit :=
  lock ;;
  q <- gets qthread ;;
  (if Nat.eqb (List.length (query_queue q)) 0
   then set_ready_to_query true else ret tt) ;;
  q <- gets qthread ;;
  set_query_queue (query_queue q ++ [(query_str, cb)]) ;;
  unlock.

Definition query_response (line : text) : M World unit :=
  lock ;;
  in_env (print (str "Got query response " ++ line)) ;;
  q <- gets qthread ;;
  if Nat.eqb (List.length (query_queue q)) 0 then
    unlock ;;
    raise IndexError
  else
    match query_queue q with
    | d :: rest =>
        set_query_queue rest ;;                         (* pop(0) *)
        set_ready_to_query true ;;
        in_env (snd d line) ;;
        unlock
    | [] => raise IndexError
    end.

(** *** The response callbacks *)

Definition resp_is_playing : callback := fun line =>
  if text_eqb line (str "0")
  then set_playstate PlayerState.end_
  else set_playstate PlayerState.play.

Definition resp_title : callback := fun line =>
  set_video_title line ;;
  print (str "Set title: " ++ line).

Definition resp_get_time : callback := fun line =>
  v <- int_of (Some line) ;;
  set_curr_time v ;;
  print (str "Set current time: " ++ line).

Definition resp_get_length : callback := fun line =>
  v <- int_of (Some line) ;;
  set_total_time v ;;
  print (str "Set total time: " ++ line).

(** The four [queue_query] calls that precede the read loop (lines 330 to
    333 of vlcc.py). *)
Definition startup_queries : M World unit :=
  queue_query (str "is_playing") resp_is_playing ;;
  queue_query (str "title") resp_title ;;
  queue_query (str "get_time") resp_title ;;
  queue_query (str "get_length") resp_title.

(* ================================================================== *)
(** ** The read loop *)

(** The body of [if line != '']: a status change, else a command
    acknowledgment, else the response to the command at the head of the
    queue. *)
Definition classify (line : text) : M World unit :=
  match re_match status_change_line line with
  | Some m =>
      match group 1 m with
      | Some payload => in_env (status_change payload)
      | None => raise TypeError
      end
  | None =>
      handled <- query_return_line line ;;
      if handled : bool then ret tt
      else
        try_except (query_response line)
          (fun e =>
             match e with
             | IndexError =>
                 Some (in_env (print (str "Unmatched line: " ++ [dquote] ++ line ++ [dquote])))
             | QueryValueError q v =>
                 Some (in_env (print (str "Invalid value for query " ++ [dquote] ++ q
                                       ++ [dquote] ++ str ": " ++ v)))
             | _ => None
             end)
  end.

(** What [t.read_until(b'\n', 60)] does: it returns the bytes received, up
    to and including a newline if one came within the time allowed (none at
    all when nothing came), or raises. *)
Inductive read_result : Type :=
| Data (data : text)
| ConnectionResetError
| EOFError.

(** How one turn of the [while True] loop ends. *)
Inductive turn : Type :=
| Next (buf : text)          (* the loop goes round again with this [buf] *)
| Exit (code : Z)            (* sys.exit(code) *)
| Uncaught (e : exn)         (* the exception leaves [main] *)
| Hang.                      (* the main thread waits for ever *)

(** [buf.decode('ascii')] *)
Definition decode_ascii (buf : text) : option text :=
  if forallb is_ascii buf then Some buf else None.

Definition loop_turn (r : read_result) (buf : text) (w : World) : turn * World :=
  match r with
  | ConnectionResetError =>
      (Exit 0, snd (in_env (print (str
         "Remote connection reset - VLC may have been shut down.")) w))
  | EOFError =>
      (Exit 0, snd (in_env (print (str
         "Remote connection closed - EOF reached.")) w))
  | Data data =>
      let buf := buf ++ data in
      match rev buf with
      | [] => (Uncaught IndexError, w)                  (* buf[-1] of b'' *)
      | b :: _ =>
          if negb (Ascii.eqb b newline) then (Next buf, w)
          else
            match decode_ascii buf with
            | None => (Uncaught UnicodeDecodeError, w)
            | Some s =>
                let line := strip s in
                if negb (text_eqb line []) then
                  match classify line w with
                  | (Ret _, w') => (Next [], w')
                  | (Raise e, w') => (Uncaught e, w')
                  | (Block, w') => (Hang, w')
                  end
                else (Next [], w)
            end
      end
  end.

(** The read loop against a transport that behaves as [script] says, one
    entry per call of [read_until]; [None] while the loop is still running
    when the script ends. *)
Fixpoint read_loop (script : list read_result) (buf : text) (w : World)
  : option turn * World :=
  match script with
  | [] => (None, w)
  | r :: script' =>
      match loop_turn r buf w with
      | (Next buf', w') => read_loop script' buf' w'
      | (t, w') => (Some t, w')
      end
  end.

(** [main] from the first [queue_query] on, with the querier and timer
    threads idle. *)
Definition session (script : list read_result) : option turn * World :=
  read_loop script [] (snd (startup_queries initial_world)).

(* ================================================================== *)
(** ** Vocabulary of the properties *)

(** [s] does not start with a character of the class [p]. *)
Definition starts_clean (p : ascii -> bool) (s : text) : Prop :=
  match s with
  | c :: _ => p c = false
  | [] => True
  end.

(** The call [m] returns, whatever the player and the output are. *)
Definition returns (m : M Env unit) : Prop := forall e, fst (m e) = Ret tt.

(** What [query_response] prints before it looks at the queue. *)
Definition got_response (line : text) (e : Env) : Env :=
  mkEnv (player e) (stdout e ++ [str "Got query response " ++ line]).

(** *** The queue discipline *)

(** The four operations on the queue: [queue_query], one turn of the
    querier thread (with what its write does, if it writes),
    [query_return_line] and [query_response]. *)
Inductive qop : Type :=
| Enqueue (name : text) (cb : callback)
| DispatchTick (wr : write_result)
| AckLine (line : text)
| ResponseLine (line : text).

Definition exec (o : qop) : M World unit :=
  match o with
  | Enqueue name cb => queue_query name cb
  | DispatchTick wr => run_iteration wr
  | AckLine line => query_return_line line ;; ret tt
  | ResponseLine line => query_response line
  end.

(** The names of the queued commands, oldest first. *)
Definition names (q : list (text * callback)) : list text := map fst q.

Fixpoint texts_eqb (a b : list text) : bool :=
  match a, b with
  | [], [] => true
  | x :: a', y :: b' => text_eqb x y && texts_eqb a' b'
  | _, _ => false
  end.

(** What [send] writes for a command. *)
Definition line_of (c : text * callback) : text := fst c ++ [newline].

(** [out] without the first of its lines that is [line], if there is one. *)
Fixpoint retire (line : text) (out : list text) : list text :=
  match out with
  | [] => []
  | l :: out' => if text_eqb l line then out' else l :: retire line out'
  end.

(** What has happened to the queue, read off the states before and after
    each operation; the program keeps none of it. *)
Inductive event : Type :=
| EnqueuedOnEmpty        (* a command was appended to an empty queue *)
| HeadRemoved            (* the head was popped *)
| Dispatched.            (* a line was written to the transport *)

Record History : Type := mkHistory {
  (** whether the queue was empty at the most recent enqueue *)
  at_last_enqueue : option bool;
  (** the most recent of the three events *)
  last_event : option event;
  (** the lines written to the transport and not answered for yet: a line
      stays here until a command with that line is removed from the head of
      the queue *)
  outstanding : list text
}.

Definition no_history : History := mkHistory None None [].

(** The lines that an operation wrote to the transport, from the transport
    before and after it. *)
Definition written (w w' : World) : list text :=
  skipn (List.length (wire w)) (wire w').

Definition observe (o : qop) (w w' : World) (h : History) : History :=
  let q := query_queue (qthread w) in
  let q' := query_queue (qthread w') in
  match o with
  | Enqueue name _ =>
      if texts_eqb (names q') (names q ++ [name]) then
        mkHistory (Some (Nat.eqb (List.length q) 0))
                  (if Nat.eqb (List.length q) 0 then Some EnqueuedOnEmpty
                   else last_event h)
                  (outstanding h)
      else h
  | DispatchTick _ =>
      match written w w' with
      | [] => h
      | lines =>
          mkHistory (at_last_enqueue h) (Some Dispatched) (outstanding h ++ lines)
      end
  | AckLine _ | ResponseLine _ =>
      match q with
      | c :: rest =>
          if texts_eqb (names q') (names rest) then
            mkHistory (at_last_enqueue h) (Some HeadRemoved)
                      (retire (line_of c) (outstanding h))
          else h
      | [] => h
      end
  end.

(** Whatever an operation does (return, raise or wait for the lock), the
    next one finds the world it left. *)
Fixpoint run_ops (ops : list qop) (w : World) (h : History) : World * History :=
  match ops with
  | [] => (w, h)
  | o :: ops' =>
      let w' := snd (exec o w) in
      run_ops ops' w' (observe o w w' h)
  end.

(** The commands in flight: written to the transport and not answered for
    yet. *)
Definition in_flight (h : History) : nat := List.length (outstanding h).

(** The invariant as the spec words it: the flag is set only if the queue
    was empty at the last enqueue, or the head has just been removed. *)
Definition ready_as_stated (s : World * History) : Prop :=
  ready_to_query (qthread (fst s)) = true ->
  at_last_enqueue (snd s) = Some true \/ last_event (snd s) = Some HeadRemoved.

(** The invariant the code keeps: the flag is set only if, of the three
    events, the most recent one is an enqueue on an empty queue or a removal
    of the head (and so not a dispatch). *)
Definition ready_since_event (s : World * History) : Prop :=
  ready_to_query (qthread (fst s)) = true ->
  last_event (snd s) = Some EnqueuedOnEmpty \/ last_event (snd s) = Some HeadRemoved.

(** What an operation does to queue, flag and transport: nothing; or a
    command is appended (and the flag set if the queue was empty); or the
    flag is cleared for the head and the head's line written, unless the
    write fails; or the head is removed and the flag set. *)
Inductive effect (o : qop) (w w' : World) : Prop :=
| effect_none :
    query_queue (qthread w') = query_queue (qthread w) ->
    ready_to_query (qthread w') = ready_to_query (qthread w) ->
    wire w' = wire w ->
    effect o w w'
| effect_append (name : text) (cb : callback) :
    o = Enqueue name cb ->
    query_queue (qthread w') = query_queue (qthread w) ++ [(name, cb)] ->
    ready_to_query (qthread w')
    = (ready_to_query (qthread w) || Nat.eqb (List.length (query_queue (qthread w))) 0) ->
    wire w' = wire w ->
    effect o w w'
| effect_dispatch (wr : write_result) (c : text * callback) (rest : list (text * callback)) :
    o = DispatchTick wr ->
    ready_to_query (qthread w) = true ->
    query_queue (qthread w) = c :: rest ->
    query_queue (qthread w') = c :: rest ->
    ready_to_query (qthread w') = false ->
    wire w' = wire w \/ wire w' = wire w ++ [line_of c] ->
    effect o w w'
| effect_remove (c : text * callback) (rest : list (text * callback)) :
    (forall wr, o <> DispatchTick wr) ->
    (forall name cb, o <> Enqueue name cb) ->
    query_queue (qthread w) = c :: rest ->
    query_queue (qthread w') = rest ->
    ready_to_query (qthread w') = true ->
    wire w' = wire w ->
    effect o w w'.

(** What the operations keep true of the queue and its history: nothing is
    outstanding, or the line of the head is and the flag is cleared; and the
    flag is set only after the events that set it. *)
Definition queue_inv (w : World) (h : History) : Prop :=
  (outstanding h = []
   \/ (ready_to_query (qthread w) = false
       /\ exists c rest,
            query_queue (qthread w) = c :: rest /\ outstanding h = [line_of c]))
  /\ (ready_to_query (qthread w) = true ->
      last_event h = Some EnqueuedOnEmpty \/ last_event h = Some HeadRemoved).

(* ================================================================== *)
(** ** Before the session: options, host and connection *)

(** What [usage()] prints; [argv0] is [sys.argv[0]]. *)
Definition usage (argv0 : text) : list text :=
  [ str "VLC remote control interface with various integrations";
    str "Usage: " ++ argv0 ++ str " [options]";
    [];
    str "Options:";
    str "-h            --help            Print this message and exit";
    str "-H host:port  --host=host:port  Sets the host where the VLC player is accessed. Defaults to localhost:8080";
    str "-p port       --port=port       Sets the port where the HTTP interface is exposed by this application. Defaults to 9000." ].

(** [s.split(sep)] for a single-character separator: the pieces between
    the separators, one more than there are separators. *)
Fixpoint split_on (sep : ascii) (s : text) : list text :=
  match s with
  | [] => [[]]
  | c :: s' =>
      if Ascii.eqb c sep then [] :: split_on sep s'
      else
        match split_on sep s' with
        | piece :: pieces => (c :: piece) :: pieces
        | [] => [[c]]
        end
  end.

(** [h, p = host.split(':')], with [h = host] and [p = "8080"] when the
    unpacking raises [ValueError] (any number of pieces but two). *)
Definition split_host (host : text) : text * text :=
  match split_on ":" host with
  | [h; p] => (h, p)
  | _ => (host, str "8080")
  end.

(** How the part of [main] before the threads start ends. *)
Inductive prelude_end : Type :=
| Proceed (h : text) (p : Z)      (* connected to [h], port [p] *)
| SysExit (code : Z)              (* sys.exit(code) *)
| Died (e : exn).                 (* an exception leaves [main] *)

(** The [for o, a in opts] loop: the values of [host] and [port] when it
    ends, or how it stops, and what was printed. *)
Fixpoint options_loop (argv0 : text) (opts : list (text * text))
         (host : text) (port : Z) (out : list text)
  : (text * Z + prelude_end) * list text :=
  match opts with
  | [] => (inl (host, port), out)
  | (o, a) :: rest =>
      if text_eqb o (str "-h") || text_eqb o (str "--help") then
        (inr (SysExit 0), out ++ usage argv0)
      else if text_eqb o (str "-H") || text_eqb o (str "--host") then
        options_loop argv0 rest a port out
      else if text_eqb o (str "-p") || text_eqb o (str "--port") then
        match py_int a with
        | Some v => options_loop argv0 rest host v out
        | None => (inr (Died ValueError), out)
        end
      else options_loop argv0 rest host port out
  end.

(** What [getopt.getopt] returns or raises. *)
Inductive getopt_result : Type :=
| Parsed (opts : list (text * text))
| GetoptError (msg : text).

(** What [telnetlib.Telnet(h, p)] does, as far as [main] tells the cases
    apart. *)
Inductive connect_result : Type :=
| Connected
| gaierror
| ConnectionRefusedError
| ConnectRaises (e : exn).    (* any other exception: it leaves [main] *)

(** [main] up to 'Connected!'. *)
Definition main_prelude (argv0 : text) (g : getopt_result)
           (connect : text -> Z -> connect_result) : prelude_end * list text :=
  match g with
  | GetoptError msg => (SysExit 2, usage argv0 ++ [msg])
  | Parsed opts =>
      match options_loop argv0 opts (str "localhost:8080") 9000 [] with
      | (inr stop, out) => (stop, out)
      | (inl (host, _), out) =>
          let (h, p) := split_host host in
          let out := out ++ [str "Attempting to connect to VLC at " ++ h ++ str ":" ++ p] in
          match py_int p with
          | None => (Died ValueError, out)
          | Some port =>
              match connect h port with
              | Connected => (Proceed h port, out ++ [str "Connected!"])
              | gaierror => (SysExit 1, out ++ [str "Connection to host failed."])
              | ConnectionRefusedError =>
                  (SysExit 1,
                   out ++ [str "Connection refused - the interface may be occupied or not available."])
              | ConnectRaises e => (Died e, out)
              end
          end
      end
  end.

(* ================================================================== *)
(** ** The timer thread *)

(** [str(n)] for an integer. *)
Definition Z_to_text (n : Z) : text :=
  str (DecimalString.NilZero.string_of_int (Z.to_int n)).

(** One turn of the [while True] loop of [TimeAdvancerThread.run] (the
    one-second sleep apart). *)
Definition timer_turn : M Env unit :=
  inc_curr_time_if_playing ;;
  t <- gets (fun e => _curr_time (player e)) ;;
  print (Z_to_text t).

(* ================================================================== *)
(** ** Sequences of queue operations *)

(** [queue_query] for each command in turn. *)
Fixpoint queue_all (cs : list (text * callback)) : M World unit :=
  match cs with
  | [] => ret tt
  | (name, cb) :: cs' => queue_query name cb ;; queue_all cs'
  end.

(** [query_response] for each line in turn. *)
Fixpoint respond_all (ls : list text) : M World unit :=
  match ls with
  | [] => ret tt
  | l :: ls' => query_response l ;; respond_all ls'
  end.

(** The player and output after the callbacks of [cs] have run, in order,
    each on the line of [ls] at its position. *)
Fixpoint deliver (cs : list (text * callback)) (ls : list text) (e : Env) : Env :=
  match cs, ls with
  | (_, cb) :: cs', l :: ls' => deliver cs' ls' (snd (cb l (got_response l e)))
  | _, _ => e
  end.

(* ================================================================== *)
(** ** More vocabulary *)

(** No group of [r] has number [i]. *)
Fixpoint no_group (i : nat) (r : regex) : bool :=
  match r with
  | Opt r' => no_group i r'
  | Group j r' => negb (Nat.eqb i j) && no_group i r'
  | Cat r1 r2 => no_group i r1 && no_group i r2
  | _ => true
  end.

(** The payload is a volume report with more digits than the interpreter
    lets [int] read. *)
Definition long_volume (payload : text) : bool :=
  match re_match volume_re payload with
  | Some mc =>
      match group 1 mc with
      | Some g => too_long g
      | None => false
      end
  | None => false
  end.

(** The attributes that describe the media are the same in [e] and [e']. *)
Definition same_media (e e' : Env) : Prop :=
  _video_title (player e') = _video_title (player e)
  /\ _curr_time (player e') = _curr_time (player e)
  /\ _total_time (player e') = _total_time (player e)
  /\ _source (player e') = _source (player e).

(** No pattern of [rules] matches [payload]. *)
Definition no_rule_matches (rules : list (text * regex * (captures -> M Env unit)))
           (payload : text) : bool :=
  forallb (fun rule =>
             match re_match (snd (fst rule)) payload with
             | Some _ => false
             | None => true
             end) rules.

(** A payload that a line can carry to the end: no closing parenthesis and
    no newline. *)
Definition plain_payload (payload : text) : bool :=
  forallb (fun c => dot c && negb (Ascii.eqb c ")")) payload.

(** Current time, total time and source are the same in [e] and [e']. *)
Definition steady (e e' : Env) : Prop :=
  _curr_time (player e') = _curr_time (player e)
  /\ _total_time (player e') = _total_time (player e)
  /\ _source (player e') = _source (player e).

(** A callback that always returns and keeps times and source. *)
Definition gentle (cb : callback) : Prop :=
  forall l e, exists e', cb l e = (Ret tt, e') /\ steady e e'.

(** A command whose name [send] can encode, with a gentle callback. *)
Definition good (c : text * callback) : Prop :=
  forallb is_ascii (line_of c) = true /\ gentle (snd c).

(** [l1] is [l2] with some entries left out. *)
Inductive subseq {A : Type} : list A -> list A -> Prop :=
| subseq_nil : subseq [] []
| subseq_skip (x : A) (l1 l2 : list A) : subseq l1 l2 -> subseq l1 (x :: l2)
| subseq_take (x : A) (l1 l2 : list A) : subseq l1 l2 -> subseq (x :: l1) (x :: l2).

(** The ways the read loop can stop when no callback raises and no write
    fails: the transport was reset or closed, a read timed out on an empty
    buffer, a line was not ASCII, or (on an interpreter that limits the
    digits of [int]) a volume report had too many digits. *)
Definition expected_end (t : turn) : Prop :=
  match t with
  | Exit code => code = 0%Z
  | Uncaught e =>
      e = IndexError \/ e = UnicodeDecodeError
      \/ (e = ValueError /\ (0 < int_max_str_digits py)%nat)
  | Next _ => False
  | Hang => False
  end.

(* ================================================================== *)
(** ** The three threads together *)

(** The commands that [main] queues before its read loop, in order. *)
Definition startup_commands : list (text * callback) :=
  [ (str "is_playing", resp_is_playing);
    (str "title", resp_title);
    (str "get_time", resp_title);
    (str "get_length", resp_title) ].

(** The thread that takes a step; for the querier thread, with what its
    write does if it writes. *)
Inductive thread : Type :=
| Main
| Querier (wr : write_result)
| Timer.

(** Where the main thread is: before one of its [queue_query] calls, at the
    top of the read loop with its [buf], or past the loop. *)
Inductive main_state : Type :=
| Starting (todo : list (text * callback))
| Reading (buf : text)
| Ended (t : turn).

(** The process: the main thread, what the transport will still deliver
    (one entry per call of [read_until]), and the shared world. *)
Record Process : Type := mkProcess {
  main : main_state;
  unread : list read_result;
  world : World
}.

(** One step of the main thread: the next [queue_query], or one turn of the
    read loop; with nothing left to read it waits in [read_until]. *)
Definition main_step (p : Process) : Process :=
  match main p with
  | Starting [] => mkProcess (Reading []) (unread p) (world p)
  | Starting ((name, cb) :: todo) =>
      match queue_query name cb (world p) with
      | (Ret _, w') => mkProcess (Starting todo) (unread p) w'
      | (Raise e, w') => mkProcess (Ended (Uncaught e)) (unread p) w'
      | (Block, w') => mkProcess (Ended Hang) (unread p) w'
      end
  | Reading buf =>
      match unread p with
      | [] => p
      | r :: rs =>
          match loop_turn r buf (world p) with
          | (Next buf', w') => mkProcess (Reading buf') rs w'
          | (t, w') => mkProcess (Ended t) rs w'
          end
      end
  | Ended _ => p
  end.

(** One step of the thread [t].  Once [main] has exited or died the process
    is over and the daemon threads with it.  A turn of the querier thread or
    of the timer thread is taken as a whole, between two steps of the main
    thread.  [QuerierThread.run] has no handler: when [send] raises (the
    write fails, or the name cannot be encoded) the thread dies between
    [lock()] and [unlock()], the lock stays held (no thread releases it
    without acquiring it first), and the turns of the dead thread
    are turns of [run_iteration] that wait at [lock()] and change nothing,
    as are those of a live one that waits for the lock. *)
Definition thread_step (t : thread) (p : Process) : Process :=
  match main p with
  | Ended (Exit _) | Ended (Uncaught _) => p
  | _ =>
      match t with
      | Main => main_step p
      | Querier wr => mkProcess (main p) (unread p) (snd (run_iteration wr (world p)))
      | Timer => mkProcess (main p) (unread p) (snd (in_env timer_turn (world p)))
      end
  end.

Definition run_threads (schedule : list thread) (p : Process) : Process :=
  fold_left (fun p t => thread_step t p) schedule p.

(** [main] from its first [queue_query] on, against a transport that
    delivers [reads], with the threads taking steps as [schedule] says. *)
Definition program (schedule : list thread) (reads : list read_result) : Process :=
  run_threads schedule (mkProcess (Starting startup_commands) reads initial_world).

(** What has been written to the transport, given the commands [done] that
    have left the queue: some of their lines, in order, and after them
    possibly the line of the command at the head of the queue, with the flag
    cleared. *)
Definition wire_ok (done : list (text * callback)) (w : World) : Prop :=
  subseq (wire w) (map line_of done)
  \/ (ready_to_query (qthread w) = false
      /\ exists c rest w0,
           query_queue (qthread w) = c :: rest
           /\ wire w = w0 ++ [line_of c]
           /\ subseq w0 (map line_of done)).

(** What every step of every thread keeps true of the process, whether
    writes fail or not: the startup commands are those that have left the
    queue, those in it and those still to be queued; the transport has what
    [wire_ok] says; total time and source are as [Player.__init__] set
    them. *)
Definition process_inv (p : Process) : Prop :=
  (exists done rest,
     startup_commands = done ++ query_queue (qthread (world p)) ++ rest
     /\ (forall todo, main p = Starting todo -> rest = todo)
     /\ wire_ok done (world p))
  /\ _total_time (player (env (world p))) = 0%Z
  /\ _source (player (env (world p))) = [].

(** What the steps keep true besides while every write succeeds: the lock
    is free between steps, and the main thread ends only as expected. *)
Definition process_live (p : Process) : Prop :=
  data_lock (qthread (world p)) = false
  /\ match main p with Ended t => expected_end t | _ => True end.

(** No write of the querier thread fails. *)
Definition writes_succeed (schedule : list thread) : Prop :=
  Forall (fun t => t <> Querier WriteFails) schedule.

(** How many steps of [schedule] are the timer's. *)
Definition timer_steps (schedule : list thread) : Z :=
  Z.of_nat (List.length (filter (fun t => match t with Timer => true | _ => false end) schedule)).

(** [n] turns of the timer thread, one after the other. *)
Fixpoint timer_turns (n : nat) (e : Env) : Env :=
  match n with
  | O => e
  | S n' => timer_turns n' (snd (timer_turn e))
  end.

Definition carriage_return : ascii := "013".

(** The option is [-p] or [--port]. *)
Definition is_port_option (o : text) : bool :=
  text_eqb o (str "-p") || text_eqb o (str "--port").

(** [s] has no character [c]. *)
Definition free_of (c : ascii) (s : text) : bool :=
  forallb (fun x => negb (Ascii.eqb x c)) s.

(* ================================================================== *)
(** * Properties *)

(** ** Characters and text *)

Lemma text_eqb_refl (a : text) : text_eqb a a = true.
Proof.
  induction a as [|c a IH]; simpl; [reflexivity|].
  now rewrite Ascii.eqb_refl, IH.
Qed.

Lemma text_eqb_eq (a b : text) : text_eqb a b = true <-> a = b.
Proof.
  split; [|intros ->; apply text_eqb_refl].
  revert b; induction a as [|x a IH]; intros [|y b] H; simpl in H;
    try discriminate; [reflexivity|].
  apply andb_true_iff in H as [Hxy Hab].
  apply Ascii.eqb_eq in Hxy. apply IH in Hab. now subst.
Qed.

Lemma text_eqb_neq (a b : text) : a <> b -> text_eqb a b = false.
Proof.
  intros H. destruct (text_eqb a b) eqn:E; [|reflexivity].
  apply text_eqb_eq in E. contradiction.
Qed.

Lemma digit_not_c_isspace (c : ascii) : is_digit c = true -> c_isspace c = false.
Proof.
  destruct c as [[] [] [] [] [] [] [] []]; vm_compute; congruence.
Qed.

Lemma digit_not_sign (c : ascii) :
  is_digit c = true -> Ascii.eqb c "-" = false /\ Ascii.eqb c "+" = false.
Proof.
  destruct c as [[] [] [] [] [] [] [] []]; vm_compute; intuition congruence.
Qed.

Lemma lstrip_with_clean (p : ascii -> bool) (s : text) :
  starts_clean p s -> lstrip_with p s = s.
Proof. destruct s as [|c s]; simpl; [reflexivity|]. now intros ->. Qed.

(** Text that neither starts nor ends with a stripped character is its own
    [strip]. *)
Lemma strip_with_clean (p : ascii -> bool) (s : text) :
  starts_clean p s -> starts_clean p (rev s) -> strip_with p s = s.
Proof.
  intros H1 H2. unfold strip_with.
  rewrite (lstrip_with_clean p s H1), (lstrip_with_clean p (rev s) H2).
  apply rev_involutive.
Qed.

Lemma forallb_rev_true (p : ascii -> bool) (s : text) :
  forallb p s = true -> forallb p (rev s) = true.
Proof.
  rewrite !forallb_forall. intros H x Hx. apply H. now apply in_rev.
Qed.

Lemma digits_clean_end (pre ds : text) :
  ds <> [] -> forallb is_digit ds = true -> starts_clean c_isspace (rev (pre ++ ds)).
Proof.
  intros Hne Hall. rewrite rev_app_distr.
  apply forallb_rev_true in Hall.
  destruct (rev ds) as [|z r] eqn:E.
  - apply (f_equal (@rev ascii)) in E. rewrite rev_involutive in E. contradiction.
  - simpl in *. apply andb_true_iff in Hall as [Hz _].
    now apply digit_not_c_isspace.
Qed.

Lemma int_digits_all (ds : text) :
  forallb is_digit ds = true ->
  forall acc b,
    int_digits acc b ds =
    match ds with
    | [] => if b then Some acc else None
    | _ => Some (fold_left (fun a c => (a * 10 + digit_val c)%Z) ds acc)
    end.
Proof.
  induction ds as [|c ds IH]; intros Hall acc b; [reflexivity|].
  simpl in Hall. apply andb_true_iff in Hall as [Hc Hds].
  simpl. rewrite Hc, (IH Hds). now destruct ds.
Qed.

Lemma digit_not_high_space (c : ascii) : is_digit c = true -> is_high_space c = false.
Proof.
  destruct c as [[] [] [] [] [] [] [] []]; vm_compute; congruence.
Qed.

Lemma digits_keep_spaces (ds : text) :
  forallb is_digit ds = true ->
  map (fun c => if is_high_space c then " " else c) ds = ds.
Proof.
  induction ds as [|c ds IH]; intros H; [reflexivity|].
  simpl in H. apply andb_true_iff in H as [Hc Hds].
  cbn [map]. now rewrite (digit_not_high_space c Hc), (IH Hds).
Qed.

Lemma digit_count_digits (ds : text) :
  forallb is_digit ds = true -> digit_count ds = List.length ds.
Proof.
  unfold digit_count.
  induction ds as [|c ds IH]; intros H; [reflexivity|].
  simpl in H. apply andb_true_iff in H as [Hc Hds].
  cbn [filter]. rewrite Hc. cbn [List.length]. now rewrite (IH Hds).
Qed.

(** [int] of an optional hyphen and a non-empty run of digits: its value,
    unless the interpreter finds the digits too many. *)
Lemma py_int_signed (neg : bool) (ds : text) :
  ds <> [] -> forallb is_digit ds = true ->
  py_int ((if neg then str "-" else []) ++ ds)
  = if too_long ds then None
    else Some (if neg then - decimal ds else decimal ds)%Z.
Proof.
  intros Hne Hall. unfold py_int.
  assert (Hmap : map (fun c => if is_high_space c then " " else c)
                     ((if neg then str "-" else []) ++ ds)
                 = (if neg then str "-" else []) ++ ds).
  { rewrite map_app, (digits_keep_spaces ds Hall). now destruct neg. }
  rewrite Hmap. clear Hmap.
  rewrite strip_with_clean.
  - assert (Hlong : too_long ((if neg then str "-" else []) ++ ds) = too_long ds).
    { now destruct neg. }
    rewrite Hlong. clear Hlong.
    destruct neg; cbn [app str list_ascii_of_string].
    + rewrite Ascii.eqb_refl, (int_digits_all ds Hall).
      destruct ds; [contradiction|reflexivity].
    + destruct ds as [|c ds]; [contradiction|].
      pose proof Hall as Hall'. simpl in Hall'.
      apply andb_true_iff in Hall' as [Hc _].
      destruct (digit_not_sign c Hc) as [-> ->].
      now rewrite (int_digits_all (c :: ds) Hall).
  - destruct neg; simpl; [reflexivity|].
    destruct ds as [|c ds]; [contradiction|]. simpl in *.
    apply andb_true_iff in Hall as [Hc _]. now apply digit_not_c_isspace.
  - now apply digits_clean_end.
Qed.

(** The Standard Library reads a run of digits as [decimal] does. *)
Lemma uint_of_digits (ds : text) :
  forallb is_digit ds = true ->
  exists d,
    DecimalString.NilEmpty.uint_of_string (string_of_list_ascii ds) = Some d
    /\ (forall acc, Z.pos (Pos.of_uint_acc d acc)
                    = fold_left (fun a c => (a * 10 + digit_val c)%Z) ds (Z.pos acc))
    /\ Z.of_N (Pos.of_uint d) = decimal ds.
Proof.
  unfold decimal.
  induction ds as [|c ds IH]; intros H.
  - exists Decimal.Nil. repeat split.
  - simpl in H. apply andb_true_iff in H as [Hc Hds].
    destruct (IH Hds) as (d & Hd & Hacc & Hval).
    cbn [string_of_list_ascii DecimalString.NilEmpty.uint_of_string fold_left].
    rewrite Hd.
    destruct c as [[] [] [] [] [] [] [] []]; try discriminate Hc;
      cbn [DecimalString.uint_of_char];
      eexists; (split; [reflexivity|]);
      match goal with
      | |- context [digit_val ?c] =>
          let v := eval vm_compute in (digit_val c) in change (digit_val c) with v
      end;
      (split; [intros acc; cbn [Pos.of_uint_acc]; rewrite Hacc; f_equal; lia
              |cbn [Pos.of_uint Z.of_N]; rewrite ?Hacc, ?Hval; reflexivity]).
Qed.

(** An optional hyphen and a non-empty run of digits spell the integer
    that [int] makes of them. *)
Lemma spelled_signed (neg : bool) (ds : text) :
  ds <> [] -> forallb is_digit ds = true ->
  spelled ((if neg then str "-" else []) ++ ds)
  = Some (if neg then - decimal ds else decimal ds)%Z.
Proof.
  intros Hne Hds. unfold spelled.
  destruct (uint_of_digits ds Hds) as (d & Hd & _ & Hval).
  destruct ds as [|c ds]; [contradiction|].
  destruct neg; cbn [str list_ascii_of_string app string_of_list_ascii
                     DecimalString.NilZero.int_of_string].
  - rewrite Ascii.eqb_refl.
    unfold DecimalString.NilZero.uint_of_string.
    change (String c (string_of_list_ascii ds)) with (string_of_list_ascii (c :: ds)).
    cbn [string_of_list_ascii] in Hd |- *. rewrite Hd.
    cbn [option_map Z.of_int]. unfold Z.of_uint. now rewrite Hval.
  - pose proof Hds as Hc. simpl in Hc. apply andb_true_iff in Hc as [Hc _].
    destruct (digit_not_sign c Hc) as [-> _].
    unfold DecimalString.NilZero.uint_of_string.
    cbn [string_of_list_ascii] in Hd. rewrite Hd.
    cbn [option_map Z.of_int]. unfold Z.of_uint. now rewrite Hval.
Qed.

(** ** The matching engine *)

Lemma strip_prefix_app (p s : text) : strip_prefix p (p ++ s) = Some s.
Proof.
  induction p as [|c p IH]; simpl; [now destruct s|].
  now rewrite Ascii.eqb_refl.
Qed.

Lemma strip_prefix_Some (p s r : text) : strip_prefix p s = Some r -> s = p ++ r.
Proof.
  revert s; induction p as [|c p IH]; intros s H.
  - destruct s; simpl in H; now inversion H.
  - destruct s as [|d s]; simpl in H; [discriminate|].
    destruct (Ascii.eqb_spec c d) as [->|]; [|discriminate].
    simpl. f_equal. now apply IH.
Qed.

(** What a group records: the text read between its two ends. *)
Lemma firstn_consumed (a b : text) :
  firstn (List.length (a ++ b) - List.length b) (a ++ b) = a.
Proof.
  rewrite length_app, Nat.add_sub.
  rewrite firstn_app, Nat.sub_diag, firstn_all. simpl. apply app_nil_r.
Qed.

Section StarFacts.
Context {R : Type}.
Variable p : ascii -> bool.

(** A successful greedy repetition read some run of the class and the
    continuation accepted what was left. *)
Lemma star_greedy_inv (s : text) (k : text -> option R) (m : R) :
  star_greedy p s k = Some m ->
  exists pre rest, s = pre ++ rest /\ forallb p pre = true /\ k rest = Some m.
Proof.
  induction s as [|c s IH]; simpl; intros H.
  - exists [], []. auto.
  - destruct (p c) eqn:Hc.
    + destruct (star_greedy p s k) eqn:E.
      * inversion H; subst.
        destruct (IH eq_refl) as (pre & rest & -> & Hpre & Hk).
        exists (c :: pre), rest. simpl. rewrite Hc. auto.
      * exists [], (c :: s). auto.
    + exists [], (c :: s). auto.
Qed.

(** Greedy repetition prefers the whole run: when the continuation accepts
    what follows the longest run, that is the match. *)
Lemma star_greedy_max (pre rest : text) (k : text -> option R) (m : R) :
  forallb p pre = true -> starts_clean p rest -> k rest = Some m ->
  star_greedy p (pre ++ rest) k = Some m.
Proof.
  intros Hpre Hrest Hk. induction pre as [|c pre IH]; simpl in *.
  - destruct rest as [|c r]; simpl in *; [assumption|]. now rewrite Hrest.
  - apply andb_true_iff in Hpre as [-> Hpre]. now rewrite (IH Hpre).
Qed.

(** Lazy repetition stops at the first place where the continuation
    accepts. *)
Lemma star_lazy_first (pre rest : text) (k : text -> option R) (m : R) :
  forallb p pre = true ->
  (forall a b, pre = a ++ b -> b <> [] -> k (b ++ rest) = None) ->
  k rest = Some m ->
  star_lazy p (pre ++ rest) k = Some m.
Proof.
  intros Hpre Hnot Hk. induction pre as [|c pre IH].
  - simpl. destruct rest; simpl; now rewrite Hk.
  - simpl in Hpre. apply andb_true_iff in Hpre as [Hc Hpre].
    cbn [app star_lazy].
    assert (H0 : k (c :: pre ++ rest) = None)
      by (apply (Hnot [] (c :: pre)); [reflexivity|discriminate]).
    rewrite H0, Hc. apply IH; [assumption|].
    intros a b -> Hb. apply (Hnot (c :: a) b); [reflexivity|assumption].
Qed.

Lemma star_lazy_inv (s : text) (k : text -> option R) (m : R) :
  star_lazy p s k = Some m ->
  exists pre rest, s = pre ++ rest /\ forallb p pre = true /\ k rest = Some m.
Proof.
  induction s as [|c s IH]; cbn [star_lazy]; intros H.
  - exists [], []. destruct (k []); [auto|discriminate].
  - destruct (k (c :: s)) eqn:E.
    + exists [], (c :: s). inversion H; subst. auto.
    + destruct (p c) eqn:Hc; [|discriminate].
      destruct (IH H) as (pre & rest & -> & Hpre & Hk).
      exists (c :: pre), rest. simpl. rewrite Hc. auto.
Qed.
End StarFacts.

Lemma star_greedy_all {R : Type} (p : ascii -> bool) (s : text)
      (k : text -> option R) (m : R) :
  forallb p s = true -> k [] = Some m -> star_greedy p s k = Some m.
Proof.
  intros Hs Hk. rewrite <- (app_nil_r s).
  now apply star_greedy_max.
Qed.

Lemma firstn_whole (s : text) :
  firstn (List.length s - List.length (@nil ascii)) s = s.
Proof. simpl. now rewrite Nat.sub_0_r, firstn_all. Qed.

(** A line that [status_change_line] matches starts with the text
    "status change: ( ". *)
Lemma status_change_line_prefix (line : text) (m : captures) :
  re_match status_change_line line = Some m ->
  exists rest, line = str "status change: ( " ++ rest.
Proof.
  unfold re_match, status_change_line. cbn [run].
  rewrite Nat.eqb_refl.
  destruct (strip_prefix (str "status change: ( ") line) as [rest|] eqn:E;
    [|discriminate].
  intros _. exists rest. now apply strip_prefix_Some.
Qed.

(** A line that [query_return_line_re] matches is a non-empty name, the text
    ": returned " and more; the name is group 1. *)
Lemma query_return_line_shape (line : text) (m : captures) :
  re_match query_return_line_re line = Some m ->
  exists name rest,
    line = name ++ str ": returned " ++ rest
    /\ name <> [] /\ forallb is_name_char name = true
    /\ group 1 m = Some name.
Proof.
  unfold re_match, query_return_line_re. cbn [run].
  rewrite Nat.eqb_refl.
  destruct line as [|c s]; [discriminate|].
  destruct (is_name_char c) eqn:Hc; [|discriminate].
  intros H. apply star_greedy_inv in H as (pre & rest & -> & Hpre & H).
  destruct (strip_prefix (str ": returned ") rest) as [rest1|] eqn:E1;
    [|discriminate].
  apply strip_prefix_Some in E1. subst rest.
  destruct rest1 as [|d s1]; [discriminate|].
  destruct (is_digit d); [|discriminate].
  apply star_greedy_inv in H as (ds & rest2 & -> & _ & H).
  apply star_greedy_inv in H as (tail & rest3 & -> & _ & H).
  exists (c :: pre), (d :: ds ++ tail ++ rest3).
  repeat split.
  - discriminate.
  - simpl. now rewrite Hc.
  - assert (G : group 1 m
                = Some (firstn (List.length ((c :: pre) ++ str ": returned " ++ d :: ds ++ tail ++ rest3)
                                - List.length (str ": returned " ++ d :: ds ++ tail ++ rest3))
                               ((c :: pre) ++ str ": returned " ++ d :: ds ++ tail ++ rest3))).
    { destruct rest3 as [|x [|y r]]; try discriminate.
      - now inversion H.
      - destruct (Ascii.eqb x newline); [|discriminate]. now inversion H. }
    rewrite G. f_equal. apply firstn_consumed.
Qed.

(** Two ways to split the same text, one into a run of a class and a
    separator, the other into a separator-free start and a character outside
    the class, cannot agree. *)
Lemma split_clash (p : ascii -> bool) (x y : ascii) (name pre r1 r2 : text) :
  forallb p name = true -> p y = false -> x <> y ->
  forallb (fun c => negb (Ascii.eqb c x)) pre = true ->
  name ++ x :: r1 = pre ++ y :: r2 -> False.
Proof.
  intros Hname Hy Hxy. revert pre.
  induction name as [|a name IH]; intros [|b pre] Hpre E; simpl in *.
  - inversion E. contradiction.
  - inversion E; subst. rewrite Ascii.eqb_refl in Hpre. discriminate.
  - inversion E; subst. rewrite Hy in Hname. discriminate.
  - inversion E; subst.
    apply andb_true_iff in Hname as [_ Hname].
    apply andb_true_iff in Hpre as [_ Hpre].
    now apply (IH Hname pre Hpre).
Qed.

(** No line is both an acknowledgment and a status change: the name of an
    acknowledgment has no space. *)
Lemma ack_is_not_status_change (line : text) (m : captures) :
  re_match query_return_line_re line = Some m ->
  re_match status_change_line line = None.
Proof.
  intros H.
  destruct (re_match status_change_line line) as [m'|] eqn:E; [|reflexivity].
  exfalso.
  apply query_return_line_shape in H as (name & rest & Hl & _ & Hname & _).
  apply status_change_line_prefix in E as (rest' & Hl').
  rewrite Hl in Hl'.
  apply (split_clash is_name_char ":" " " name (str "status")
                     (str " returned " ++ rest) (str "change: ( " ++ rest'));
    [assumption|reflexivity|discriminate|reflexivity|exact Hl'].
Qed.

(** The matches of [volume_re]: the payload is the text "audio volume: ",
    an optional hyphen and a non-empty run of digits (and, since [$] also
    matches before a final newline, possibly a newline); group 1 is the
    hyphen and the digits. *)
Lemma volume_re_shape (payload : text) (mc : captures) :
  re_match volume_re payload = Some mc ->
  exists (neg : bool) (ds tail : text),
    ds <> [] /\ forallb is_digit ds = true
    /\ (tail = [] \/ tail = [newline])
    /\ payload = str "audio volume: " ++ (if neg then str "-" else []) ++ ds ++ tail
    /\ group 1 mc = Some ((if neg then str "-" else []) ++ ds).
Proof.
  unfold re_match, volume_re. cbn [run].
  rewrite Nat.eqb_refl.
  destruct (strip_prefix (str "audio volume: ") payload) as [s1|] eqn:E;
    [|discriminate].
  apply strip_prefix_Some in E. subst payload.
  assert (Hplus : forall s caps,
             match s with
             | [] => None
             | c :: s' =>
                 if is_digit c
                 then star_greedy is_digit s'
                        (fun s'' =>
                           match s'' with
                           | [] => Some ((1%nat, firstn (List.length s1 - List.length s'') s1) :: caps)
                           | [c0] =>
                               if Ascii.eqb c0 newline
                               then Some ((1%nat, firstn (List.length s1 - List.length s'') s1) :: caps)
                               else None
                           | _ :: _ :: _ => None
                           end)
                 else None
             end = Some mc ->
             exists ds rest,
               s = ds ++ rest /\ ds <> [] /\ forallb is_digit ds = true
               /\ (rest = [] \/ rest = [newline])
               /\ group 1 mc = Some (firstn (List.length s1 - List.length rest) s1)).
  { intros [|c s'] caps H; [discriminate|].
    destruct (is_digit c) eqn:Hc; [|discriminate].
    apply star_greedy_inv in H as (pre & rest & -> & Hpre & H).
    exists (c :: pre), rest.
    split; [reflexivity|]. split; [discriminate|].
    split; [simpl; now rewrite Hc|].
    destruct rest as [|x [|y r]]; try discriminate.
    - split; [now left|]. now inversion H.
    - destruct (Ascii.eqb_spec x newline) as [->|]; [|discriminate].
      split; [now right|]. now inversion H. }
  destruct (strip_prefix (str "-") s1) as [s2|] eqn:E2.
  - apply strip_prefix_Some in E2. subst s1.
    destruct (match s2 with [] => None | c :: s' => _ end) eqn:E3.
    + intros H. inversion H; subst.
      apply Hplus in E3 as (ds & rest & -> & Hne & Hds & Hrest & G).
      exists true, ds, rest. repeat split; try assumption.
      rewrite G. f_equal.
      rewrite (app_assoc (str "-") ds rest). apply firstn_consumed.
    + intros H. apply Hplus in H as (ds & rest & E & Hne & Hds & _ & G).
      (* the payload starts with a hyphen, so a digit cannot start it *)
      destruct ds as [|d ds]; [contradiction|]. simpl in E. inversion E; subst.
      discriminate.
  - intros H. apply Hplus in H as (ds & rest & -> & Hne & Hds & Hrest & G).
    exists false, ds, rest. repeat split; try assumption.
    rewrite G. f_equal. apply firstn_consumed.
Qed.

Lemma digit_plain (c : ascii) :
  is_digit c = true -> dot c && negb (Ascii.eqb c ")") = true.
Proof.
  destruct c as [[] [] [] [] [] [] [] []]; vm_compute; congruence.
Qed.

(** The volume pattern accepts an optional hyphen and a non-empty run of
    digits, and captures them. *)
Lemma volume_re_matches (neg : bool) (ds : text) :
  ds <> [] -> forallb is_digit ds = true ->
  re_match volume_re (str "audio volume: " ++ (if neg then str "-" else []) ++ ds)
  = Some [(1%nat, (if neg then str "-" else []) ++ ds)].
Proof.
  intros Hne Hds.
  unfold re_match, volume_re. cbn [run].
  rewrite Nat.eqb_refl, strip_prefix_app.
  destruct ds as [|d ds']; [contradiction|].
  pose proof Hds as Hds0. cbn [forallb] in Hds0.
  apply andb_true_iff in Hds0 as [Hd Hds'].
  destruct neg.
  - cbn [strip_prefix str list_ascii_of_string app].
    rewrite Ascii.eqb_refl, Hd.
    rewrite (star_greedy_all _ ds' _ [(1%nat, "-" :: d :: ds')] Hds');
      [reflexivity|].
    now rewrite firstn_whole.
  - cbn [app].
    assert (E : strip_prefix (str "-") (d :: ds') = None).
    { cbn [strip_prefix str list_ascii_of_string].
      destruct (digit_not_sign d Hd) as [Hm _].
      rewrite Ascii.eqb_sym in Hm. now rewrite Hm. }
    rewrite E, Hd.
    apply star_greedy_all; [assumption|].
    now rewrite firstn_whole.
Qed.

(** A payload without a closing parenthesis or a newline is what
    [status_change_line] captures from the line that wraps it. *)
Lemma status_line_payload (payload : text) :
  forallb (fun c => dot c && negb (Ascii.eqb c ")")) payload = true ->
  re_match status_change_line (str "status change: ( " ++ payload ++ str " )")
  = Some [(1%nat, payload)].
Proof.
  intros Hp.
  unfold re_match, status_change_line. cbn [run].
  rewrite Nat.eqb_refl, strip_prefix_app.
  apply star_lazy_first.
  - rewrite forallb_forall in *. intros c Hc.
    apply Hp in Hc. now apply andb_true_iff in Hc as [Hd _].
  - intros a b -> Hb.
    rewrite forallb_app in Hp. apply andb_true_iff in Hp as [_ Hb'].
    assert (E : strip_prefix (str " )") (b ++ str " )") = None).
    { destruct b as [|c [|d b']]; [contradiction| |];
        cbn [strip_prefix str list_ascii_of_string app].
      - destruct (Ascii.eqb " " c); reflexivity.
      - cbn [forallb] in Hb'.
        apply andb_true_iff in Hb' as [_ Hb']. apply andb_true_iff in Hb' as [Hd _].
        apply andb_true_iff in Hd as [_ Hd]. apply negb_true_iff in Hd.
        rewrite Ascii.eqb_sym in Hd. rewrite Hd.
        destruct (Ascii.eqb " " c); reflexivity. }
    now rewrite E.
  - cbn -[firstn List.length app str]. rewrite firstn_consumed. reflexivity.
Qed.

(** ** The player *)

(** One second of the timer thread: the current time advances by one while
    playing, and nothing changes otherwise. *)
Lemma inc_curr_time_if_playing_spec (e : Env) :
  inc_curr_time_if_playing e
  = (Ret tt,
     if PlayerState.eqb (_playstate (player e)) PlayerState.play
     then mkEnv (with_curr_time (_curr_time (player e) + 1) (player e)) (stdout e)
     else e).
Proof.
  unfold inc_curr_time_if_playing, on_player, modify.
  destruct e as [p out]. cbn [player stdout].
  destruct (PlayerState.eqb (_playstate p) PlayerState.play); reflexivity.
Qed.

(** ** Status changes *)

Lemma too_long_signed (neg : bool) (ds : text) :
  too_long ((if neg then str "-" else []) ++ ds) = too_long ds.
Proof. now destruct neg. Qed.

(** What the first rule of the table does with a payload that the volume
    pattern matched. *)
Lemma status_change_volume (payload : text) (mc : captures) (neg : bool)
      (ds : text) (e : Env) :
  re_match volume_re payload = Some mc ->
  group 1 mc = Some ((if neg then str "-" else []) ++ ds) ->
  ds <> [] -> forallb is_digit ds = true ->
  status_change payload e
  = if too_long ds then (Raise ValueError, e)
    else (Ret tt, mkEnv (with_volume (if neg then - decimal ds else decimal ds)%Z
                                     (player e)) (stdout e)).
Proof.
  intros H G Hne Hds.
  unfold status_change, status_changes. cbn [first_match].
  rewrite H. unfold sc_volume, int_of. rewrite G.
  rewrite (py_int_signed neg ds Hne Hds).
  now destruct (too_long ds).
Qed.

(** C9. A payload that matches the volume pattern is the text
    "audio volume: " and group 1, which spells a signed integer (an optional
    hyphen and digits).  When the interpreter's [int] takes that many digits,
    handling the payload sets [volume] to that integer and changes nothing
    else: title, play state, current time, total time and source keep their
    values, and nothing is printed.  When it does not, [ValueError] is
    raised and nothing changes at all. *)
Theorem volume_report_sets_volume_only (payload : text) (mc : captures) (e : Env) :
  re_match volume_re payload = Some mc ->
  match group 1 mc with
  | None => False
  | Some g =>
      (payload = str "audio volume: " ++ g
       \/ payload = str "audio volume: " ++ g ++ [newline])
      /\ match spelled g with
         | None => False
         | Some v =>
             if too_long g
             then status_change payload e = (Raise ValueError, e)
             else
               let e' := snd (status_change payload e) in
               status_change payload e
               = (Ret tt, mkEnv (with_volume v (player e)) (stdout e))
               /\ _volume (player e') = v
               /\ _video_title (player e') = _video_title (player e)
               /\ _playstate (player e') = _playstate (player e)
               /\ _curr_time (player e') = _curr_time (player e)
               /\ _total_time (player e') = _total_time (player e)
               /\ _source (player e') = _source (player e)
         end
  end.
Proof.
  intros H.
  destruct (volume_re_shape payload mc H) as (neg & ds & tail & Hne & Hds & Ht & Hp & G).
  rewrite G, (spelled_signed neg ds Hne Hds), too_long_signed.
  split.
  - rewrite Hp, !app_assoc. destruct Ht as [->| ->]; [left|right].
    + now rewrite app_nil_r.
    + reflexivity.
  - rewrite (status_change_volume payload mc neg ds e H G Hne Hds).
    destruct (too_long ds); [reflexivity|].
    simpl. repeat split.
Qed.

(** A line that wraps such a payload is handled as that status change. *)
Lemma classify_status_line (payload : text) (w : World) :
  forallb (fun c => dot c && negb (Ascii.eqb c ")")) payload = true ->
  classify (str "status change: ( " ++ payload ++ str " )") w
  = in_env (status_change payload) w.
Proof.
  intros Hp. unfold classify. now rewrite (status_line_payload payload Hp).
Qed.

(** The spec's first scenario, for every volume: a whole line that reports
    a volume sets [volume] and nothing else. *)
Lemma volume_line_sets_volume (neg : bool) (ds : text) (w : World) :
  ds <> [] -> forallb is_digit ds = true ->
  classify (str "status change: ( " ++ (str "audio volume: "
              ++ (if neg then str "-" else []) ++ ds) ++ str " )") w
  = if too_long ds then (Raise ValueError, w)
    else
      (Ret tt,
       mkWorld (mkEnv (with_volume (if neg then - decimal ds else decimal ds)%Z
                                   (player (env w))) (stdout (env w)))
               (qthread w) (wire w)).
Proof.
  intros Hne Hds.
  rewrite classify_status_line.
  - unfold in_env.
    rewrite (status_change_volume _ _ neg ds (env w)
               (volume_re_matches neg ds Hne Hds) eq_refl Hne Hds).
    destruct (too_long ds); [now destruct w|reflexivity].
  - rewrite !forallb_app.
    apply andb_true_iff; split; [reflexivity|].
    apply andb_true_iff; split; [now destruct neg|].
    apply forallb_forall. intros c Hc. apply digit_plain.
    rewrite forallb_forall in Hds. now apply Hds.
Qed.

(** ** Acknowledgments and responses *)

(** C10. An acknowledgment whose name is not that of the command at the
    head of the queue (or that comes while the queue is empty) is consumed by
    [query_return_line] and changes nothing: the classifier returns with the
    same queue, flag, player and output, and no response is looked for. *)
Theorem stale_ack_changes_nothing
        (line : text) (m : captures) (query_name : text) (w : World) :
  re_match query_return_line_re line = Some m ->
  group 1 m = Some query_name ->
  data_lock (qthread w) = false ->
  match query_queue (qthread w) with
  | [] => True
  | (name, _) :: _ => name <> query_name
  end ->
  query_return_line line w = (Ret true, w) /\ classify line w = (Ret tt, w).
Proof.
  intros Hm Hg Hl Hq.
  assert (A : query_return_line line w = (Ret true, w)).
  { unfold query_return_line. rewrite Hm, Hg.
    destruct w as [e [l q r] wi]. simpl in Hl, Hq. subst l.
    destruct q as [|[name cb] rest].
    - reflexivity.
    - unfold bind, lock, gets. cbn.
      now rewrite (text_eqb_neq name query_name Hq). }
  split; [exact A|].
  unfold classify. rewrite (ack_is_not_status_change line m Hm).
  unfold bind. now rewrite A.
Qed.

(** With nothing queued, [query_response] releases the lock and raises
    [IndexError]; only its own [print] has happened. *)
Lemma query_response_empty (line : text) (w : World) :
  data_lock (qthread w) = false ->
  query_queue (qthread w) = [] ->
  query_response line w
  = (Raise IndexError,
     mkWorld (mkEnv (player (env w))
                    (stdout (env w) ++ [str "Got query response " ++ line]))
             (qthread w) (wire w)).
Proof.
  destruct w as [e [l q r] wi]. simpl. intros -> ->. reflexivity.
Qed.

(** C8. A response while the queue is empty.  [query_response] runs no
    callback: it prints, releases the lock and raises [IndexError].  For a
    line that is neither a status change nor an acknowledgment the read loop
    catches that, prints the unmatched line and goes on; the queue, the flag,
    the player and the transport are as before. *)
Theorem response_without_command (line : text) (w : World) :
  re_match status_change_line line = None ->
  re_match query_return_line_re line = None ->
  data_lock (qthread w) = false ->
  query_queue (qthread w) = [] ->
  query_response line w
  = (Raise IndexError,
     mkWorld (mkEnv (player (env w))
                    (stdout (env w) ++ [str "Got query response " ++ line]))
             (qthread w) (wire w))
  /\ classify line w
     = (Ret tt,
        mkWorld (mkEnv (player (env w))
                       (stdout (env w)
                        ++ [str "Got query response " ++ line;
                            str "Unmatched line: " ++ [dquote] ++ line ++ [dquote]]))
                (qthread w) (wire w)).
Proof.
  intros Hs Ha Hl Hq.
  split; [exact (query_response_empty line w Hl Hq)|].
  unfold classify. rewrite Hs.
  unfold query_return_line. rewrite Ha.
  unfold bind at 1. unfold ret at 1.
  unfold try_except. rewrite (query_response_empty line w Hl Hq).
  unfold in_env, print, modify. cbn.
  now rewrite <- app_assoc.
Qed.

(** ** The rule table *)

(** C3, amended. The payloads "stop state: 0" and "pause state: 4" both run
    [sc_stopped], which sets the play state to [PlayerState.end]; so does a
    whole line that carries either payload. *)
Theorem stop_reports_set_end (e : Env) (w : World) :
  let ended e :=
    mkEnv (with_playstate PlayerState.end_ (player e))
          (stdout e ++ [str "Playstate change: {0} PlayerState.end"]) in
  status_change (str "stop state: 0") e = (Ret tt, ended e)
  /\ status_change (str "pause state: 4") e = (Ret tt, ended e)
  /\ classify (str "status change: ( stop state: 0 )") w
     = (Ret tt, mkWorld (ended (env w)) (qthread w) (wire w))
  /\ classify (str "status change: ( pause state: 4 )") w
     = (Ret tt, mkWorld (ended (env w)) (qthread w) (wire w)).
Proof. repeat split. Qed.

(** Every payload that the "input source" pattern matches runs
    [sc_playing]: the play state becomes [play], and [source] and the other
    attributes keep their values. *)
Lemma new_input_runs_sc_playing (payload : text) (mc : captures) (e : Env) :
  re_match new_input_re payload = Some mc ->
  status_change payload e
  = (Ret tt,
     mkEnv (with_playstate PlayerState.play (player e))
           (stdout e ++ [str "Playstate change: {0} PlayerState.play"])).
Proof.
  intros H.
  assert (P : exists rest, payload = str "new input: file:///" ++ rest).
  { revert H. unfold re_match, new_input_re. cbn [run]. rewrite Nat.eqb_refl.
    destruct (strip_prefix (str "new input: file:///") payload) as [rest|] eqn:E;
      [|discriminate].
    intros _. exists rest. now apply strip_prefix_Some. }
  destruct P as (rest & ->).
  unfold status_change, status_changes. cbn [first_match].
  assert (N : forall (lit : text) (r : regex),
             strip_prefix lit (str "new input: file:///" ++ rest) = None ->
             re_match (Caret +++ Lit lit +++ r)%re (str "new input: file:///" ++ rest) = None).
  { intros lit r E. unfold re_match. cbn [run]. now rewrite Nat.eqb_refl, E. }
  unfold volume_re at 1.
  rewrite !N by reflexivity.
  now rewrite H.
Qed.

(** C1. The line of the spec's scenario 5, read by the program: the
    "input source" rule runs [sc_playing], so the play state becomes [play]
    and [source] keeps its initial value.  [sc_new_input], run on the same
    match, would have stored the path with backslashes. *)
Theorem new_input_line_leaves_source :
  let line := str "status change: ( new input: file:///C:/Movies/a.mp4 )" in
  let w := snd (session [Data (line ++ [newline])]) in
  _source (player (env w)) = []
  /\ _playstate (player (env w)) = PlayerState.play
  /\ re_match new_input_re (str "new input: file:///C:/Movies/a.mp4")
     = Some [(1%nat, str "C:/Movies/a.mp4")]
  /\ _source (player (snd (sc_new_input [(1%nat, str "C:/Movies/a.mp4")]
                                         (mkEnv Player_init []))))
     = str "C:\Movies\a.mp4".
Proof. vm_compute. repeat split. Qed.

(** C2. The responses to the four startup queries, in order: the one to
    "get_time" and the one to "get_length" both run [resp_title], so they
    overwrite the title and the two times stay 0. *)
Theorem startup_time_responses_set_title :
  let after script := player (env (snd (session script))) in
  let r1 := Data (str "1" ++ [newline]) in
  let r2 := Data (str "Movie.mp4" ++ [newline]) in
  let r3 := Data (str "42" ++ [newline]) in
  let r4 := Data (str "3600" ++ [newline]) in
  _video_title (after [r1; r2]) = str "Movie.mp4"
  /\ _curr_time (after [r1; r2; r3]) = 0%Z
  /\ _video_title (after [r1; r2; r3]) = str "42"
  /\ _total_time (after [r1; r2; r3; r4]) = 0%Z
  /\ _video_title (after [r1; r2; r3; r4]) = str "3600".
Proof. vm_compute. repeat split. Qed.

(** C4. A response that is not a number.  In the program as it starts, the
    answer "abc" to "get_time" becomes the title and nothing is signalled.
    With [resp_get_time] queued instead, [int] raises a plain [ValueError],
    which no clause of the read loop catches: the loop ends with that
    exception, and the lock taken by [query_response] is still held. *)
Theorem malformed_time_response :
  let r1 := Data (str "1" ++ [newline]) in
  let r2 := Data (str "Movie.mp4" ++ [newline]) in
  let bad := Data (str "abc" ++ [newline]) in
  let w := snd (session [r1; r2; bad]) in
  let w0 := snd (queue_query (str "get_time") resp_get_time initial_world) in
  fst (session [r1; r2; bad]) = None
  /\ _video_title (player (env w)) = str "abc"
  /\ stdout (env w)
     = [str "Got query response 1"; str "Playstate change: {0} PlayerState.play";
        str "Got query response Movie.mp4"; str "Set title: Movie.mp4";
        str "Got query response abc"; str "Set title: abc"]
  /\ resp_get_time (str "abc") (mkEnv Player_init [])
     = (Raise ValueError, mkEnv Player_init [])
  /\ fst (read_loop [bad] [] w0) = Some (Uncaught ValueError)
  /\ data_lock (qthread (snd (read_loop [bad] [] w0))) = true.
Proof. vm_compute. repeat split. Qed.

(** ** Line assembly *)

(** A turn that leaves a non-empty [buf] without a final newline goes round
    again, keeping what was read. *)
Lemma unterminated_read_retries (buf data : text) (w : World) :
  buf ++ data <> [] ->
  last (buf ++ data) newline <> newline ->
  loop_turn (Data data) buf w = (Next (buf ++ data), w).
Proof.
  intros Hne Hlast. unfold loop_turn.
  destruct (rev (buf ++ data)) as [|b r] eqn:E.
  - apply (f_equal (@rev ascii)) in E. rewrite rev_involutive in E. contradiction.
  - apply (f_equal (@rev ascii)) in E. rewrite rev_involutive in E. simpl in E.
    rewrite E, last_last in Hlast.
    destruct (Ascii.eqb_spec b newline); [contradiction|reflexivity].
Qed.

(** C5. A read that times out with nothing received, while [buf] is empty:
    [buf[-1]] raises [IndexError], which neither [except] clause of the loop
    catches, so the exception leaves [main]; this is what a silent first
    minute after startup does. *)
Theorem empty_timeout_ends_the_loop (w : World) (script : list read_result) :
  loop_turn (Data []) [] w = (Uncaught IndexError, w)
  /\ read_loop (Data [] :: script) [] w = (Some (Uncaught IndexError), w)
  /\ fst (session (Data [] :: script)) = Some (Uncaught IndexError).
Proof. repeat split. Qed.

(** ** First in, first out *)

(** One response against a queue whose head is [(name, cb)]: the head is
    popped, the flag is set, [cb] runs on the line, the lock is released. *)
Lemma query_response_head (line name : text) (cb : callback)
      (rest : list (text * callback)) (e : Env) (r : bool) (wi : list text) :
  returns (cb line) ->
  query_response line (mkWorld e (mkQuerierThread false ((name, cb) :: rest) r) wi)
  = (Ret tt, mkWorld (snd (cb line (got_response line e)))
                     (mkQuerierThread false rest true) wi).
Proof.
  intros Hcb. unfold query_response, bind, lock, unlock, gets, in_env, print, modify.
  cbn -[str app].
  specialize (Hcb (got_response line e)). unfold got_response in *.
  destruct (cb line _) as [res e']. simpl in Hcb. subst res.
  reflexivity.
Qed.

(** [queue_query] appends, and sets the flag when the queue was empty. *)
Lemma queue_query_appends (name : text) (cb : callback)
      (q : list (text * callback)) (e : Env) (r : bool) (wi : list text) :
  queue_query name cb (mkWorld e (mkQuerierThread false q r) wi)
  = (Ret tt, mkWorld e (mkQuerierThread false (q ++ [(name, cb)])
                                         (match q with [] => true | _ => r end)) wi).
Proof. destruct q; reflexivity. Qed.

(** C7. Three commands queued on an empty queue, then three responses: the
    first line goes to the callback of the first command, the second to that
    of the second, the third to that of the third, each callback running
    once, in that order, on the player and output its predecessor left.
    The queue ends empty with the flag set. *)
Theorem responses_reach_callbacks_in_order
        (n1 n2 n3 : text) (c1 c2 c3 : callback) (l1 l2 l3 : text) (w : World) :
  data_lock (qthread w) = false ->
  query_queue (qthread w) = [] ->
  returns (c1 l1) -> returns (c2 l2) -> returns (c3 l3) ->
  let e1 := snd (c1 l1 (got_response l1 (env w))) in
  let e2 := snd (c2 l2 (got_response l2 e1)) in
  let e3 := snd (c3 l3 (got_response l3 e2)) in
  (queue_query n1 c1 ;; queue_query n2 c2 ;; queue_query n3 c3 ;;
   query_response l1 ;; query_response l2 ;; query_response l3) w
  = (Ret tt, mkWorld e3 (mkQuerierThread false [] true) (wire w)).
Proof.
  intros Hl Hq H1 H2 H3.
  destruct w as [e [l q r] wi]. simpl in Hl, Hq. subst l q.
  cbv zeta. unfold bind.
  rewrite !queue_query_appends.
  cbn [app env wire].
  rewrite (query_response_head l1 n1 c1 _ _ _ _ H1).
  rewrite (query_response_head l2 n2 c2 _ _ _ _ H2).
  rewrite (query_response_head l3 n3 c3 _ _ _ _ H3).
  reflexivity.
Qed.

(** ** The queue discipline *)

Lemma texts_eqb_refl (a : list text) : texts_eqb a a = true.
Proof.
  induction a as [|x a IH]; [reflexivity|].
  cbn [texts_eqb]. now rewrite text_eqb_refl, IH.
Qed.

Lemma texts_eqb_length (a b : list text) :
  texts_eqb a b = true -> List.length a = List.length b.
Proof.
  revert b. induction a as [|x a IH]; intros [|y b] H; try discriminate; [reflexivity|].
  cbn [texts_eqb] in H. apply andb_true_iff in H as [_ H].
  cbn [List.length]. now rewrite (IH b H).
Qed.

(** An operation that leaves the queue as it is neither appends a command
    nor removes the head. *)
Lemma texts_eqb_longer (a : list text) (x : text) : texts_eqb a (a ++ [x]) = false.
Proof.
  destruct (texts_eqb a (a ++ [x])) eqn:E; [|reflexivity].
  apply texts_eqb_length in E. rewrite length_app in E. cbn in E. lia.
Qed.

Lemma texts_eqb_shorter (x : text) (a : list text) : texts_eqb (x :: a) a = false.
Proof.
  destruct (texts_eqb (x :: a) a) eqn:E; [|reflexivity].
  apply texts_eqb_length in E. cbn in E. lia.
Qed.

Lemma written_nothing (w w' : World) : wire w' = wire w -> written w w' = [].
Proof. intros H. unfold written. rewrite H. apply skipn_all. Qed.

Lemma written_line (w w' : World) (line : text) :
  wire w' = wire w ++ [line] -> written w w' = [line].
Proof.
  intros H. unfold written. rewrite H, skipn_app, skipn_all, Nat.sub_diag.
  reflexivity.
Qed.

Lemma queue_query_effect (name : text) (cb : callback) (w : World) :
  effect (Enqueue name cb) w (snd (queue_query name cb w)).
Proof.
  destruct w as [e [[] q r] wi].
  - apply effect_none; reflexivity.
  - rewrite queue_query_appends.
    apply (effect_append _ _ _ name cb); try reflexivity.
    cbn. now destruct q, r.
Qed.

Lemma run_iteration_effect (wr : write_result) (w : World) :
  effect (DispatchTick wr) w (snd (run_iteration wr w)).
Proof.
  destruct w as [e [[] q r] wi].
  - apply effect_none; reflexivity.
  - unfold run_iteration, bind, lock, gets. cbn -[str].
    destruct r; cbn -[str]; [|apply effect_none; reflexivity].
    destruct q as [|[name cb] rest]; cbn -[str]; [apply effect_none; reflexivity|].
    unfold send.
    destruct (forallb is_ascii (name ++ [newline])); [destruct wr|]; cbn -[str].
    + apply (effect_dispatch _ _ _ Written (name, cb) rest); try reflexivity.
      now right.
    + apply (effect_dispatch _ _ _ WriteFails (name, cb) rest); try reflexivity.
      now left.
    + apply (effect_dispatch _ _ _ wr (name, cb) rest); try reflexivity.
      now left.
Qed.

Lemma query_return_line_effect (line : text) (w : World) :
  effect (AckLine line) w (snd ((query_return_line line ;; ret tt) w)).
Proof.
  unfold bind, query_return_line.
  destruct (re_match query_return_line_re line) as [m|];
    [|apply effect_none; reflexivity].
  destruct (group 1 m) as [query_name|]; [|apply effect_none; reflexivity].
  destruct w as [e [[] q r] wi]; [apply effect_none; reflexivity|].
  unfold bind, lock, gets. cbn -[str].
  destruct q as [|[name cb] rest]; cbn -[str]; [apply effect_none; reflexivity|].
  destruct (text_eqb name query_name); cbn -[str];
    [|apply effect_none; reflexivity].
  apply (effect_remove _ _ _ (name, cb) rest); try reflexivity; discriminate.
Qed.

Lemma query_response_effect (line : text) (w : World) :
  effect (ResponseLine line) w (snd (query_response line w)).
Proof.
  destruct w as [e [[] q r] wi]; [apply effect_none; reflexivity|].
  unfold query_response, bind, lock, gets, in_env. cbn -[str].
  destruct q as [|[name cb] rest]; cbn -[str]; [apply effect_none; reflexivity|].
  destruct (cb line _) as [[[]| |] e']; cbn -[str];
    apply (effect_remove _ _ _ (name, cb) rest); try reflexivity; discriminate.
Qed.

(** Every operation has one of the four effects. *)
Lemma exec_effect (o : qop) (w : World) : effect o w (snd (exec o w)).
Proof.
  destruct o as [name cb|wr|line|line]; cbn [exec].
  - apply queue_query_effect.
  - apply run_iteration_effect.
  - apply query_return_line_effect.
  - apply query_response_effect.
Qed.

Lemma queue_inv_step (o : qop) (w : World) (h : History) :
  queue_inv w h ->
  queue_inv (snd (exec o w)) (observe o w (snd (exec o w)) h).
Proof.
  intros [Hout Hready].
  pose proof (exec_effect o w) as Hs.
  remember (snd (exec o w)) as w' eqn:Ew'. clear Ew'.
  unfold queue_inv, observe.
  destruct Hs as [Hq Hr Hw|name cb Ho Hq Hr Hw|wr c rest Ho Hr0 Hq0 Hq Hr Hw
                 |c rest Hnd Hne Hq0 Hq Hr Hw].
  - (* nothing happened *)
    assert (E : observe o w w' h = h).
    { unfold observe. rewrite Hq. destruct o as [name cb|wr|line|line].
      - now rewrite texts_eqb_longer.
      - now rewrite (written_nothing w w' Hw).
      - destruct (query_queue (qthread w)) as [|c rest]; [reflexivity|].
        unfold names. cbn [map]. now rewrite texts_eqb_shorter.
      - destruct (query_queue (qthread w)) as [|c rest]; [reflexivity|].
        unfold names. cbn [map]. now rewrite texts_eqb_shorter. }
    fold (observe o w w' h). rewrite E, Hq, Hr. split; assumption.
  - (* a command was appended *)
    subst o. rewrite Hq. unfold names. rewrite map_app. cbn [map fst].
    rewrite texts_eqb_refl. cbn [outstanding last_event].
    rewrite Hr. split.
    + destruct Hout as [Hout|(Hf & c & rest & Hc & Hout)]; [now left|].
      right. rewrite Hf, Hc. cbn. split; [reflexivity|].
      exists c, (rest ++ [(name, cb)]). split; [reflexivity|assumption].
    + destruct (query_queue (qthread w)) as [|c rest]; cbn; [now left|].
      rewrite orb_false_r. exact Hready.
  - (* the flag was cleared for the head *)
    subst o. rewrite Hq, Hr. 
    destruct Hout as [Hout|(Hf & _)]; [|congruence].
    destruct Hw as [Hw|Hw].
    + rewrite (written_nothing w w' Hw). split; [now left|discriminate].
    + rewrite (written_line w w' _ Hw). cbn [outstanding last_event].
      rewrite Hout. split; [|discriminate].
      right. split; [reflexivity|]. now exists c, rest.
  - (* the head was removed *)
    assert (E : observe o w w' h
                = mkHistory (at_last_enqueue h) (Some HeadRemoved)
                            (retire (line_of c) (outstanding h))).
    { unfold observe. rewrite Hq0, Hq, texts_eqb_refl.
      destruct o as [name cb|wr|line|line]; try reflexivity.
      - now destruct (Hne name cb).
      - now destruct (Hnd wr). }
    fold (observe o w w' h). rewrite E. cbn [outstanding last_event].
    split; [left|now right].
    destruct Hout as [->|(_ & c0 & rest0 & Hc & ->)]; [reflexivity|].
    rewrite Hq0 in Hc. inversion Hc; subst.
    cbn [retire]. now rewrite text_eqb_refl.
Qed.

Lemma queue_inv_run (ops : list qop) (w : World) (h : History) :
  queue_inv w h ->
  queue_inv (fst (run_ops ops w h)) (snd (run_ops ops w h)).
Proof.
  revert w h. induction ops as [|o ops IH]; intros w h H; [exact H|].
  cbn [run_ops]. apply IH. now apply queue_inv_step.
Qed.

Lemma queue_inv_in_flight (w : World) (h : History) :
  queue_inv w h -> (in_flight h <= 1)%nat.
Proof.
  intros [[E|(_ & c & rest & _ & E)] _]; unfold in_flight; rewrite E; cbn; lia.
Qed.

(** C6, as the spec words it, fails after the program's first two
    [queue_query] calls: the flag is set, although the queue was not empty at
    the last enqueue and no head has been removed. *)
Lemma ready_after_second_enqueue :
  ~ ready_as_stated
      (run_ops [Enqueue (str "is_playing") resp_is_playing;
                Enqueue (str "title") resp_title]
               initial_world no_history).
Proof.
  intros H. destruct (H eq_refl) as [E|E]; vm_compute in E; discriminate.
Qed.

(** C6, amended. After any sequence of enqueues, dispatch turns (whether
    their writes succeed or fail), acknowledgment lines and response lines on
    a fresh queue: the flag is set only if the most recent event, among an
    enqueue on an empty queue, a removal of the head and a dispatch, is one
    of the first two; and at most one command is in flight, that is, at most
    one of the lines written to the transport has not been answered for by
    the removal of a command of that line from the head of the queue. *)
Theorem queue_discipline (ops : list qop) (e : Env) (wi : list text) :
  let s := run_ops ops (mkWorld e QuerierThread_init wi) no_history in
  ready_since_event s /\ (in_flight (snd s) <= 1)%nat.
Proof.
  cbv zeta.
  assert (I : queue_inv (mkWorld e QuerierThread_init wi) no_history).
  { split; [now left|discriminate]. }
  apply (queue_inv_run ops) in I.
  split.
  - intros Hr. now apply I.
  - exact (queue_inv_in_flight _ _ I).
Qed.

(* ================================================================== *)
(** * Further properties *)

(** ** The rule table as a whole *)

(** A group that is closed stays in the match: the rest of the pattern, if
    it has no group of the same number, cannot lose it. *)
Lemma run_keeps_group (i : nat) (x : text) (r : regex) :
  no_group i r = true ->
  forall n s caps k m,
    (forall s' caps', group i caps' = Some x -> k s' caps' = Some m -> group i m = Some x) ->
    group i caps = Some x ->
    run n r s caps k = Some m ->
    group i m = Some x.
Proof.
  induction r as [| |l|p|p|p|p|r IH|j r IH|r1 IH1 r2 IH2];
    intros Hng n s caps k m Hk Hc H; cbn [run] in H; cbn [no_group] in Hng.
  - destruct (Nat.eqb (List.length s) n); [|discriminate]. eauto.
  - destruct s as [|c [|d s']].
    + eauto.
    + destruct (Ascii.eqb c newline); [eauto|discriminate].
    + discriminate.
  - destruct (strip_prefix l s); [eauto|discriminate].
  - destruct s as [|c s']; [discriminate|].
    destruct (p c); [eauto|discriminate].
  - apply star_greedy_inv in H as (pre & rest & _ & _ & H). eauto.
  - destruct s as [|c s']; [discriminate|].
    destruct (p c); [|discriminate].
    apply star_greedy_inv in H as (pre & rest & _ & _ & H). eauto.
  - apply star_lazy_inv in H as (pre & rest & _ & _ & H). eauto.
  - destruct (run n r s caps k) as [m'|] eqn:E.
    + inversion H; subst. eapply IH; eauto.
    + eauto.
  - apply andb_true_iff in Hng as [Hij Hng].
    eapply IH; [exact Hng| |exact Hc|exact H].
    intros s' caps' Hc' Hk'. eapply Hk; [|exact Hk'].
    cbn [group]. apply negb_true_iff in Hij. now rewrite Hij.
  - apply andb_true_iff in Hng as [Hng1 Hng2].
    eapply IH1; [exact Hng1| |exact Hc|exact H].
    intros s' caps' Hc' H'. cbv beta in H'.
    exact (IH2 Hng2 n s' caps' k m Hk Hc' H').
Qed.

(** Every match of [status_change_line] has its first group. *)
Lemma status_change_line_group (line : text) (m : captures) :
  re_match status_change_line line = Some m ->
  exists payload, group 1 m = Some payload.
Proof.
  unfold re_match, status_change_line.
  remember (Lit (str " )") +++ Opt (Group 2 (Lit (str ":") +++ Star dot))
            +++ Star is_space +++ Dollar)%re as tail_re eqn:Et.
  cbn [run]. rewrite Nat.eqb_refl.
  destruct (strip_prefix (str "status change: ( ") line) as [s1|]; [|discriminate].
  intros H. apply star_lazy_inv in H as (pre & rest & _ & _ & H).
  exists (firstn (List.length s1 - List.length rest) s1).
  refine (run_keeps_group 1 _ tail_re _ _ _ _ _ _ _ _ H).
  - subst tail_re. reflexivity.
  - intros s' caps' Hc Hk. now inversion Hk; subst.
  - cbn [group]. reflexivity.
Qed.

Lemma same_media_refl (e : Env) : same_media e e.
Proof. repeat split. Qed.

(** Only an interpreter that limits the digits of [int] finds a volume too
    long. *)
Lemma long_volume_limit (payload : text) :
  long_volume payload = true -> (0 < int_max_str_digits py)%nat.
Proof.
  unfold long_volume, too_long.
  destruct (re_match volume_re payload) as [mc|]; [|discriminate].
  destruct (group 1 mc) as [g|]; [|discriminate].
  intros H. apply andb_true_iff in H as [H _]. now apply Nat.ltb_lt in H.
Qed.

(** What every rule of the table has in common. *)
Lemma status_change_effect (payload : text) (e : Env) :
  exists e',
    status_change payload e
    = (if long_volume payload then (Raise ValueError, e) else (Ret tt, e'))
    /\ same_media e e'
    /\ (_volume (player e') = _volume (player e)
        \/ _playstate (player e') = _playstate (player e)).
Proof.
  unfold long_volume.
  destruct (re_match volume_re payload) as [mc|] eqn:E.
  { destruct (volume_re_shape payload mc E) as (neg & ds & tail & Hne & Hds & _ & _ & G).
    rewrite (status_change_volume payload mc neg ds e E G Hne Hds).
    rewrite G, too_long_signed.
    destruct (too_long ds).
    - exists e. split; [reflexivity|]. split; [apply same_media_refl|now left].
    - eexists. split; [reflexivity|]. unfold same_media. cbn. auto. }
  unfold status_change, status_changes, same_media. cbn [first_match].
  rewrite E.
  repeat (match goal with
          | |- context [re_match ?r payload] =>
              destruct (re_match r payload);
              [ cbn -[str]; eexists; split; [reflexivity|]; cbn; auto | ]
          end).
  cbn -[str]. eexists. split; [reflexivity|]. cbn. auto 6.
Qed.

(** X1. Whatever the payload, handling a status change returns, unless the
    payload is a volume report with more digits than the interpreter lets
    [int] read: then [ValueError] is raised and nothing changes.  In either
    case title, current time, total time and source are left alone, and at
    most one of volume and play state changes. *)
Theorem status_change_returns_and_keeps_media (payload : text) (e : Env) :
  exists e',
    status_change payload e
    = (if long_volume payload then (Raise ValueError, e) else (Ret tt, e'))
    /\ same_media e e'
    /\ (_volume (player e') = _volume (player e)
        \/ _playstate (player e') = _playstate (player e)).
Proof. exact (status_change_effect payload e). Qed.

Lemma first_match_none (rules : list (text * regex * (captures -> M Env unit)))
      (payload : text) (e : Env) :
  no_rule_matches rules payload = true ->
  first_match rules payload e = (Ret false, e).
Proof.
  induction rules as [|[[name check] func] rules IH]; intros H; [reflexivity|].
  cbn [no_rule_matches forallb fst snd] in H. cbn [first_match].
  destruct (re_match check payload); [discriminate|].
  now apply IH.
Qed.

(** X2. A payload that no pattern of the table matches changes nothing in
    the player; one line that names the payload is printed. *)
Theorem unmatched_status_change_only_prints (payload : text) (e : Env) :
  no_rule_matches status_changes payload = true ->
  status_change payload e
  = (Ret tt, mkEnv (player e) (stdout e ++ [str "Unmatched status change: " ++ payload])).
Proof.
  intros H. unfold status_change, bind.
  now rewrite (first_match_none status_changes payload e H).
Qed.

(** ** Status-change lines *)

Lemma no_close_after (b rest : text) :
  b <> [] -> plain_payload b = true ->
  strip_prefix (str " )") (b ++ str " )" ++ rest) = None.
Proof.
  intros Hb Hp. unfold plain_payload in Hp.
  destruct b as [|c [|d b']]; [contradiction| |];
    cbn [strip_prefix str list_ascii_of_string app].
  - destruct (Ascii.eqb " " c); reflexivity.
  - cbn [forallb] in Hp.
    apply andb_true_iff in Hp as [_ Hp]. apply andb_true_iff in Hp as [Hd _].
    apply andb_true_iff in Hd as [_ Hd]. apply negb_true_iff in Hd.
    rewrite Ascii.eqb_sym in Hd. rewrite Hd.
    destruct (Ascii.eqb " " c); reflexivity.
Qed.

(** The text after the closing parenthesis, when it starts with a colon,
    is matched by the second group and ignored. *)
Lemma status_line_payload_tail (payload tail : text) :
  plain_payload payload = true -> forallb dot tail = true ->
  exists m,
    re_match status_change_line
             (str "status change: ( " ++ payload ++ str " )" ++ str ":" ++ tail) = Some m
    /\ group 1 m = Some payload.
Proof.
  intros Hp Ht.
  exists [(2%nat, str ":" ++ tail); (1%nat, payload)].
  split; [|reflexivity].
  unfold re_match, status_change_line. cbn [run].
  rewrite Nat.eqb_refl, strip_prefix_app.
  apply star_lazy_first.
  - unfold plain_payload in Hp. rewrite forallb_forall in *. intros c Hc.
    apply Hp in Hc. now apply andb_true_iff in Hc as [Hd _].
  - intros a b -> Hb.
    unfold plain_payload in Hp. rewrite forallb_app in Hp.
    apply andb_true_iff in Hp as [_ Hb'].
    now rewrite (no_close_after b _ Hb Hb').
  - rewrite strip_prefix_app, strip_prefix_app.
    rewrite (star_greedy_all dot tail _
               [(2%nat, str ":" ++ tail); (1%nat, payload)] Ht); [reflexivity|].
    cbn [star_greedy]. rewrite firstn_whole.
    now rewrite firstn_consumed.
Qed.

(** X3. A status-change line may go on after the closing parenthesis with
    a colon and any text: that text is ignored, and the line is handled as
    the status change of its payload. *)
Theorem status_line_tail_is_ignored (payload tail : text) (w : World) :
  plain_payload payload = true -> forallb dot tail = true ->
  classify (str "status change: ( " ++ payload ++ str " )" ++ str ":" ++ tail) w
  = in_env (status_change payload) w.
Proof.
  intros Hp Ht.
  destruct (status_line_payload_tail payload tail Hp Ht) as (m & Hm & Hg).
  unfold classify. now rewrite Hm, Hg.
Qed.

(** X4. A line that the status-change pattern matches never reaches the
    command queue.  The classifier returns, unless the payload is a volume
    report with more digits than the interpreter lets [int] read: then
    [ValueError] is raised and nothing changes.  When it returns, the queue,
    its flag, its lock and the transport are as before, and so are title,
    times and source. *)
Theorem status_line_leaves_queue (line : text) (m : captures) (w : World) :
  re_match status_change_line line = Some m ->
  exists payload e',
    group 1 m = Some payload
    /\ classify line w
       = (if long_volume payload then (Raise ValueError, w)
          else (Ret tt, mkWorld e' (qthread w) (wire w)))
    /\ same_media (env w) e'.
Proof.
  intros Hm.
  destruct (status_change_line_group line m Hm) as (payload & Hg).
  destruct (status_change_effect payload (env w))
    as (e' & He & Hmedia & _).
  exists payload, e'. split; [exact Hg|]. split; [|exact Hmedia].
  unfold classify. rewrite Hm, Hg. unfold in_env. rewrite He.
  destruct (long_volume payload); [now destruct w|reflexivity].
Qed.

(** ** Acknowledgments *)

(** X5. An acknowledgment that names the command at the head of the queue
    removes it and sets the flag; the callback of that command is not run,
    so the player is as before, and one line is printed. *)
Theorem matching_ack_removes_head
        (line : text) (m : captures) (query_name : text) (cb : callback)
        (rest : list (text * callback)) (e : Env) (r : bool) (wi : list text) :
  re_match query_return_line_re line = Some m ->
  group 1 m = Some query_name ->
  classify line (mkWorld e (mkQuerierThread false ((query_name, cb) :: rest) r) wi)
  = (Ret tt,
     mkWorld (mkEnv (player e) (stdout e ++ [str "QRL removing " ++ query_name]))
             (mkQuerierThread false rest true) wi).
Proof.
  intros Hm Hg.
  unfold classify. rewrite (ack_is_not_status_change line m Hm).
  unfold bind at 1. unfold query_return_line. rewrite Hm, Hg.
  unfold bind, lock, unlock, gets, in_env, print, modify, on_qthread,
    set_query_queue, set_ready_to_query, ret.
  cbn -[str app]. rewrite text_eqb_refl. reflexivity.
Qed.

(** ** The lock *)

(** X6. When the callback of the head raises, [query_response] has already
    popped the head and set the flag, and it never releases the lock: from
    then on [queue_query], [query_response] and the querier thread all wait
    for ever, and change nothing. *)
Theorem raising_callback_keeps_the_lock
        (line name : text) (cb : callback) (rest : list (text * callback))
        (e e' : Env) (r : bool) (wi : list text) (ex : exn) :
  cb line (got_response line e) = (Raise ex, e') ->
  let w' := mkWorld e' (mkQuerierThread true rest true) wi in
  query_response line (mkWorld e (mkQuerierThread false ((name, cb) :: rest) r) wi)
  = (Raise ex, w')
  /\ (forall n c, queue_query n c w' = (Block, w'))
  /\ (forall l, query_response l w' = (Block, w'))
  /\ (forall wr, run_iteration wr w' = (Block, w')).
Proof.
  intros Hcb. cbv zeta. split; [|repeat split].
  unfold query_response, bind, lock, unlock, gets, in_env, print, modify.
  cbn -[str app].
  match goal with
  | |- context [cb line ?x] =>
      change (cb line x) with (cb line (got_response line e))
  end.
  now rewrite Hcb.
Qed.

(** ** The querier thread *)

(** X7. A turn of the querier thread never touches the queue or the player,
    and writes at most the head's name and a newline, only when the flag is
    set; a second turn right after the first does nothing more, whether the
    writes succeed or fail.  So a command is not written again until
    something sets the flag. *)
Theorem dispatch_turn_sends_at_most_once (wr wr' : write_result) (w : World) :
  let w1 := snd (run_iteration wr w) in
  snd (run_iteration wr' w1) = w1
  /\ query_queue (qthread w1) = query_queue (qthread w)
  /\ player (env w1) = player (env w)
  /\ (wire w1 = wire w
      \/ exists name cb rest,
           query_queue (qthread w) = (name, cb) :: rest
           /\ ready_to_query (qthread w) = true
           /\ wire w1 = wire w ++ [name ++ [newline]]).
Proof.
  destruct w as [e [[] q r] wi]; [cbn; auto|].
  unfold run_iteration, bind, lock, gets. cbn -[str app].
  destruct r; cbn -[str app]; [|auto].
  destruct q as [|[name cb] rest]; cbn -[str app]; [auto|].
  unfold send.
  destruct (forallb is_ascii (name ++ [newline])); [destruct wr|]; cbn -[str app].
  - repeat split. right. exists name, cb, rest. auto.
  - auto.
  - auto.
Qed.

(** ** Any number of commands *)

Lemma queue_all_appends (cs q : list (text * callback)) (e : Env) (r : bool)
      (wi : list text) :
  queue_all cs (mkWorld e (mkQuerierThread false q r) wi)
  = (Ret tt,
     mkWorld e (mkQuerierThread false (q ++ cs)
                  (match q, cs with [], _ :: _ => true | _, _ => r end)) wi).
Proof.
  revert q r. induction cs as [|[name cb] cs IH]; intros q r.
  - cbn. rewrite app_nil_r. now destruct q.
  - cbn [queue_all]. unfold bind. rewrite queue_query_appends, IH.
    rewrite <- app_assoc. cbn [app].
    destruct q; reflexivity.
Qed.

Lemma respond_all_delivers (cs later : list (text * callback)) (ls : list text) :
  Forall2 (fun (c : text * callback) l => returns (snd c l)) cs ls ->
  forall (e : Env) (r : bool) (wi : list text),
    respond_all ls (mkWorld e (mkQuerierThread false (cs ++ later) r) wi)
    = (Ret tt,
       mkWorld (deliver cs ls e)
               (mkQuerierThread false later (match cs with [] => r | _ => true end)) wi).
Proof.
  induction 1 as [|[name cb] l cs ls Hcb _ IH]; intros e r wi; [reflexivity|].
  cbn [respond_all app deliver]. unfold bind.
  rewrite (query_response_head l name cb _ _ _ _ Hcb), IH.
  now destruct cs.
Qed.

(** X8. Any number of commands queued on an empty queue, then as many
    responses: each line goes to the callback of the command at its
    position, the callbacks run in queue order, once each, and the queue
    ends empty. *)
Theorem responses_follow_queue_order
        (cs : list (text * callback)) (ls : list text)
        (e : Env) (r : bool) (wi : list text) :
  Forall2 (fun (c : text * callback) l => returns (snd c l)) cs ls ->
  (queue_all cs ;; respond_all ls) (mkWorld e (mkQuerierThread false [] r) wi)
  = (Ret tt,
     mkWorld (deliver cs ls e)
             (mkQuerierThread false [] (match cs with [] => r | _ => true end)) wi).
Proof.
  intros H. unfold bind. rewrite queue_all_appends. cbn [app].
  rewrite <- (app_nil_r cs) at 1.
  rewrite (respond_all_delivers cs [] ls H).
  now destruct cs.
Qed.

(** ** Steps of the threads *)

Lemma steady_refl (e : Env) : steady e e.
Proof. repeat split. Qed.

Lemma steady_trans (e1 e2 e3 : Env) : steady e1 e2 -> steady e2 e3 -> steady e1 e3.
Proof.
  intros (A1 & A2 & A3) (B1 & B2 & B3).
  repeat split; congruence.
Qed.

Lemma steady_print (e : Env) (s : text) :
  steady e (mkEnv (player e) (stdout e ++ [s])).
Proof. repeat split. Qed.

Lemma same_media_steady (e e' : Env) : same_media e e' -> steady e e'.
Proof. intros (_ & A & B & C). repeat split; assumption. Qed.

Lemma run_iteration_step (wr : write_result) (e : Env) (l : bool)
      (q : list (text * callback)) (r : bool) (wi : list text) :
  Forall good q ->
  exists e' l' r' wi',
    snd (run_iteration wr (mkWorld e (mkQuerierThread l q r) wi))
    = mkWorld e' (mkQuerierThread l' q r') wi'
    /\ steady e e'
    /\ ((r' = r /\ wi' = wi)
        \/ (r = true /\ r' = false
            /\ exists c rest,
                 q = c :: rest /\ (wi' = wi \/ wi' = wi ++ [line_of c])))
    /\ (l = false -> wr = Written -> l' = false).
Proof.
  intros Hq.
  destruct l.
  { exists e, true, r, wi. split; [reflexivity|].
    split; [apply steady_refl|]. split; [now left|discriminate]. }
  unfold run_iteration, bind, lock, gets. cbn -[str app].
  destruct r; cbn -[str app].
  - destruct q as [|[name cb] rest]; cbn -[str app].
    + exists e, false, true, wi. split; [reflexivity|].
      split; [apply steady_refl|]. split; [now left|reflexivity].
    + inversion Hq as [|c l [Hascii _] _]; subst.
      unfold send. unfold line_of in Hascii. cbn [fst] in Hascii.
      rewrite Hascii. destruct wr; cbn -[str app].
      * eexists _, false, false, _. split; [reflexivity|].
        split; [apply steady_print|]. split; [|reflexivity].
        right. repeat split. exists (name, cb), rest. auto.
      * exists e, true, false, wi. split; [reflexivity|].
        split; [apply steady_refl|]. split; [|discriminate].
        right. repeat split. exists (name, cb), rest. auto.
  - exists e, false, false, wi. split; [reflexivity|].
    split; [apply steady_refl|]. split; [now left|reflexivity].
Qed.

Lemma classify_step (line : text) (e : Env) (l : bool) (q : list (text * callback))
      (r : bool) (wi : list text) :
  Forall good q ->
  exists res e' l' q' r',
    classify line (mkWorld e (mkQuerierThread l q r) wi)
    = (res, mkWorld e' (mkQuerierThread l' q' r') wi)
    /\ steady e e'
    /\ ((q' = q /\ r' = r) \/ (exists c, q = c :: q' /\ r' = true))
    /\ (l = false ->
        l' = false
        /\ (res = Ret tt
            \/ (res = Raise ValueError /\ (0 < int_max_str_digits py)%nat))).
Proof.
  intros Hq.
  destruct (re_match status_change_line line) as [m|] eqn:Hs.
  { destruct (status_change_line_group line m Hs) as (payload & Hg).
    destruct (status_change_effect payload e) as (e' & He & Hmedia & _).
    unfold classify. rewrite Hs, Hg. unfold in_env. cbn [env qthread wire].
    rewrite He.
    destruct (long_volume payload) eqn:Hlong.
    - exists (Raise ValueError), e, l, q, r. split; [reflexivity|].
      split; [apply steady_refl|]. split; [now left|].
      intros Hl. split; [exact Hl|]. right. split; [reflexivity|].
      now apply (long_volume_limit payload).
    - exists (Ret tt), e', l, q, r. split; [reflexivity|].
      split; [now apply same_media_steady|]. split; [now left|].
      intros Hl. split; [exact Hl|now left]. }
  destruct l.
  { (* the lock is held: whatever takes it waits *)
    exists Block, e, true, q, r.
    split; [|split; [apply steady_refl|split; [now left|discriminate]]].
    unfold classify. rewrite Hs. unfold bind at 1. unfold query_return_line.
    destruct (re_match query_return_line_re line) as [m|] eqn:Ha.
    - destruct (query_return_line_shape line m Ha) as (name & _ & _ & _ & _ & Hg).
      rewrite Hg. reflexivity.
    - reflexivity. }
  destruct (re_match query_return_line_re line) as [m|] eqn:Ha.
  { destruct (query_return_line_shape line m Ha) as (name & _ & _ & _ & _ & Hg).
    unfold classify. rewrite Hs. unfold bind at 1.
    unfold query_return_line. rewrite Ha, Hg.
    unfold bind, lock, unlock, gets, in_env, print, modify, on_qthread,
      set_query_queue, set_ready_to_query, ret.
    cbn -[str app].
    destruct q as [|[n cb] rest]; cbn -[str app].
    - exists (Ret tt), e, false, [], r. repeat split; auto.
    - destruct (text_eqb n name); cbn -[str app].
      + eexists (Ret tt), _, false, rest, true. split; [reflexivity|].
        split; [apply steady_print|]. split; [right; eauto|]. auto.
      + exists (Ret tt), e, false, ((n, cb) :: rest), r. repeat split; auto. }
  unfold classify. rewrite Hs. unfold bind at 1.
  unfold query_return_line. rewrite Ha. unfold ret at 1.
  destruct q as [|[n cb] rest].
  - unfold try_except.
    rewrite (query_response_empty line
               (mkWorld e (mkQuerierThread false [] r) wi) eq_refl eq_refl).
    cbn -[str app].
    eexists (Ret tt), _, false, [], r. split; [reflexivity|].
    split; [repeat split|]. split; [now left|]. auto.
  - inversion Hq as [|c l [_ Hcb] _]; subst. cbn [snd] in Hcb.
    destruct (Hcb line (got_response line e)) as (e' & He' & Hst).
    assert (Hret : returns (cb line)).
    { intros e0. destruct (Hcb line e0) as (e1 & -> & _). reflexivity. }
    unfold try_except.
    rewrite (query_response_head line n cb rest e r wi Hret).
    rewrite He'. cbn [snd].
    exists (Ret tt), e', false, rest, true. split; [reflexivity|].
    split; [|split; [right; eauto|auto]].
    eapply steady_trans; [|exact Hst]. apply steady_print.
Qed.

Lemma loop_turn_step (rd : read_result) (buf : text) (e : Env) (l : bool)
      (q : list (text * callback)) (r : bool) (wi : list text) :
  Forall good q ->
  exists t e' l' q' r',
    loop_turn rd buf (mkWorld e (mkQuerierThread l q r) wi)
    = (t, mkWorld e' (mkQuerierThread l' q' r') wi)
    /\ steady e e'
    /\ ((q' = q /\ r' = r) \/ (exists c, q = c :: q' /\ r' = true))
    /\ (l = false ->
        l' = false /\ match t with Next _ => True | _ => expected_end t end).
Proof.
  intros Hq. destruct rd as [data| |].
  - unfold loop_turn.
    destruct (rev (buf ++ data)) as [|b t].
    { exists (Uncaught IndexError), e, l, q, r. repeat split; cbn; auto. }
    destruct (negb (Ascii.eqb b newline)).
    { exists (Next (buf ++ data)), e, l, q, r. repeat split; auto. }
    destruct (decode_ascii (buf ++ data)) as [s|].
    2:{ exists (Uncaught UnicodeDecodeError), e, l, q, r. repeat split; cbn; auto. }
    destruct (negb (text_eqb (strip s) [])).
    + destruct (classify_step (strip s) e l q r wi Hq)
        as (res & e' & l' & q' & r' & E & Hst & Hqr & Hlive).
      rewrite E. destruct res as [[]|ex|].
      * exists (Next []), e', l', q', r'.
        split; [reflexivity|]. split; [exact Hst|]. split; [exact Hqr|].
        intros Hl. destruct (Hlive Hl) as [Hl' _]. split; [exact Hl'|exact I].
      * exists (Uncaught ex), e', l', q', r'.
        split; [reflexivity|]. split; [exact Hst|]. split; [exact Hqr|].
        intros Hl. destruct (Hlive Hl) as [Hl' [Hr|[Hr Hlim]]]; [discriminate|].
        split; [exact Hl'|]. inversion Hr; subst. cbn. auto.
      * exists Hang, e', l', q', r'.
        split; [reflexivity|]. split; [exact Hst|]. split; [exact Hqr|].
        intros Hl. destruct (Hlive Hl) as [_ [Hr|[Hr _]]]; discriminate.
    + exists (Next []), e, l, q, r. repeat split; auto.
  - eexists (Exit 0), _, l, q, r. cbn -[str app].
    split; [reflexivity|]. split; [apply steady_print|]. auto.
  - eexists (Exit 0), _, l, q, r. cbn -[str app].
    split; [reflexivity|]. split; [apply steady_print|]. auto.
Qed.

Lemma timer_turn_step (e : Env) :
  exists e',
    timer_turn e = (Ret tt, e')
    /\ _total_time (player e') = _total_time (player e)
    /\ _source (player e') = _source (player e)
    /\ _video_title (player e') = _video_title (player e)
    /\ _volume (player e') = _volume (player e)
    /\ _playstate (player e') = _playstate (player e)
    /\ _curr_time (player e')
       = (if PlayerState.eqb (_playstate (player e)) PlayerState.play
          then _curr_time (player e) + 1 else _curr_time (player e))%Z.
Proof.
  unfold timer_turn, bind. rewrite inc_curr_time_if_playing_spec.
  destruct (PlayerState.eqb (_playstate (player e)) PlayerState.play) eqn:E;
    cbn -[Z_to_text]; eexists; (split; [reflexivity|]); cbn; rewrite ?E; auto 7.
Qed.

Lemma gentle_resp_is_playing : gentle resp_is_playing.
Proof.
  intros l e. unfold resp_is_playing.
  destruct (text_eqb l (str "0")); eexists; split; try reflexivity; repeat split.
Qed.

Lemma gentle_resp_title : gentle resp_title.
Proof. intros l e. eexists. split; [reflexivity|]. repeat split. Qed.

Lemma startup_commands_good : Forall good startup_commands.
Proof.
  repeat constructor; try apply gentle_resp_is_playing; apply gentle_resp_title.
Qed.

Lemma subseq_nil_l {A : Type} (l : list A) : subseq [] l.
Proof. induction l; constructor; assumption. Qed.

Lemma subseq_refl {A : Type} (l : list A) : subseq l l.
Proof. induction l; constructor; assumption. Qed.

Lemma subseq_app {A : Type} (a b c d : list A) :
  subseq a b -> subseq c d -> subseq (a ++ c) (b ++ d).
Proof.
  induction 1 as [|x l1 l2 _ IH|x l1 l2 _ IH]; intros Hcd; cbn.
  - exact Hcd.
  - apply subseq_skip. now apply IH.
  - apply subseq_take. now apply IH.
Qed.

Lemma subseq_app_r {A : Type} (a b c : list A) : subseq a b -> subseq a (b ++ c).
Proof.
  intros H. rewrite <- (app_nil_r a). apply subseq_app; [assumption|apply subseq_nil_l].
Qed.

Lemma wire_ok_pop (done : list (text * callback)) (c : text * callback)
      (q' : list (text * callback)) (e e' : Env) (l l' r : bool) (wi : list text) :
  wire_ok done (mkWorld e (mkQuerierThread l (c :: q') r) wi) ->
  wire_ok (done ++ [c]) (mkWorld e' (mkQuerierThread l' q' true) wi).
Proof.
  intros [H|(_ & c0 & rest & w0 & Hq & Hw & H)]; left; cbn in *; rewrite map_app.
  - now apply subseq_app_r.
  - inversion Hq; subst. apply subseq_app; [assumption|apply subseq_refl].
Qed.

Lemma wire_ok_send (done : list (text * callback)) (c : text * callback)
      (rest : list (text * callback)) (e e' : Env) (l l' : bool) (wi : list text) :
  wire_ok done (mkWorld e (mkQuerierThread l (c :: rest) true) wi) ->
  wire_ok done (mkWorld e' (mkQuerierThread l' (c :: rest) false) (wi ++ [line_of c])).
Proof.
  intros [H|(Hr & _)]; [|discriminate].
  right. split; [reflexivity|]. exists c, rest, wi. auto.
Qed.

(** The flag cleared and nothing written: a write that failed. *)
Lemma wire_ok_clear (done : list (text * callback)) (q : list (text * callback))
      (e e' : Env) (l l' : bool) (wi : list text) :
  wire_ok done (mkWorld e (mkQuerierThread l q true) wi) ->
  wire_ok done (mkWorld e' (mkQuerierThread l' q false) wi).
Proof.
  intros [H|(Hr & _)]; [|discriminate]. now left.
Qed.

Lemma wire_ok_enqueue (done : list (text * callback)) (c : text * callback)
      (q : list (text * callback)) (e e' : Env) (l l' r : bool) (wi : list text) :
  wire_ok done (mkWorld e (mkQuerierThread l q r) wi) ->
  wire_ok done (mkWorld e' (mkQuerierThread l' (q ++ [c])
                              (match q with [] => true | _ => r end)) wi).
Proof.
  intros [H|(Hr & c0 & rest & w0 & Hq & Hw & H)]; [now left|].
  right. cbn in *. subst q r. split; [reflexivity|].
  exists c0, (rest ++ [c]), w0. auto.
Qed.

Lemma wire_ok_env (done : list (text * callback)) (q : list (text * callback))
      (e e' : Env) (l l' r : bool) (wi : list text) :
  wire_ok done (mkWorld e (mkQuerierThread l q r) wi) ->
  wire_ok done (mkWorld e' (mkQuerierThread l' q r) wi).
Proof. intros H. exact H. Qed.

(** [queue_query] waits for a lock that is held. *)
Lemma queue_query_waits (name : text) (cb : callback) (w : World) :
  data_lock (qthread w) = true -> queue_query name cb w = (Block, w).
Proof.
  intros H. unfold queue_query, bind, lock. now rewrite H.
Qed.

(** A turn of the querier thread keeps the invariant and the current time,
    and, if its write does not fail, leaves the lock free. *)
Lemma querier_step_inv (wr : write_result) (m : main_state)
      (reads : list read_result) (w : World) :
  let p := mkProcess m reads w in
  let p' := mkProcess m reads (snd (run_iteration wr w)) in
  process_inv p ->
  process_inv p'
  /\ _curr_time (player (env (world p'))) = _curr_time (player (env w))
  /\ (process_live p -> wr = Written -> process_live p').
Proof.
  cbv zeta. destruct w as [e [l q r] wi].
  unfold process_inv, process_live.
  cbn [main unread world qthread env wire data_lock query_queue].
  intros ((done & rest & Hdec & Htodo & Hw) & Htt & Hsrc).
  assert (Hgood : Forall good q).
  { pose proof startup_commands_good as G. rewrite Hdec in G.
    apply Forall_app in G as [_ G]. now apply Forall_app in G as [G _]. }
  destruct (run_iteration_step wr e l q r wi Hgood)
    as (e' & l' & r' & wi' & E & (Hc & Ht & Hs) & Hcase & Hlock).
  rewrite E. cbn [main unread world qthread env wire data_lock query_queue].
  split; [split; [|split; congruence]|split; [exact Hc|]].
  - exists done, rest. split; [exact Hdec|]. split; [exact Htodo|].
    destruct Hcase as [[-> ->]|(-> & -> & c & tl & -> & [->| ->])].
    + exact Hw.
    + now apply wire_ok_clear with (e := e) (l := l).
    + now apply wire_ok_send with (e := e) (l := l).
  - intros [Hl Hm] Hwr. split; [now apply Hlock|exact Hm].
Qed.

(** A turn of the timer thread keeps the invariant, the lock and the
    queue, and moves the current time by one second at most. *)
Lemma timer_step_inv (m : main_state) (reads : list read_result) (w : World) :
  let p := mkProcess m reads w in
  let p' := mkProcess m reads (snd (in_env timer_turn w)) in
  process_inv p ->
  process_inv p'
  /\ (_curr_time (player (env (world p'))) = _curr_time (player (env w))
      \/ _curr_time (player (env (world p'))) = (_curr_time (player (env w)) + 1)%Z)
  /\ (process_live p -> process_live p').
Proof.
  cbv zeta. destruct w as [e [l q r] wi].
  unfold process_inv, process_live, in_env.
  cbn [main unread world qthread env wire data_lock query_queue].
  intros ((done & rest & Hdec & Htodo & Hw) & Htt & Hsrc).
  destruct (timer_turn_step e) as (e' & E & Ht & Hs & _ & _ & _ & Hc).
  rewrite E. cbn [snd main unread world qthread env wire data_lock query_queue].
  split; [split; [|split; congruence]|split].
  - exists done, rest. auto.
  - rewrite Hc. destruct (PlayerState.eqb _ _); auto.
  - auto.
Qed.

(** Every step of every thread keeps the invariant, and only a step of the
    timer changes the current time, by one second at most; while no write
    fails, every step leaves the lock free and the main thread ends only as
    expected. *)
Lemma thread_step_inv (t : thread) (p : Process) :
  process_inv p ->
  process_inv (thread_step t p)
  /\ (_curr_time (player (env (world (thread_step t p))))
      = _curr_time (player (env (world p)))
      \/ (t = Timer
          /\ _curr_time (player (env (world (thread_step t p))))
             = (_curr_time (player (env (world p))) + 1)%Z))
  /\ (process_live p -> t <> Querier WriteFails -> process_live (thread_step t p)).
Proof.
  intros Hp.
  assert (Hsame : process_inv p
                  /\ (_curr_time (player (env (world p)))
                      = _curr_time (player (env (world p)))
                      \/ (t = Timer
                          /\ _curr_time (player (env (world p)))
                             = (_curr_time (player (env (world p))) + 1)%Z))
                  /\ (process_live p -> t <> Querier WriteFails -> process_live p)).
  { split; [exact Hp|]. split; [now left|auto]. }
  assert (Hquerier : forall wr,
             t = Querier wr ->
             let p' := mkProcess (main p) (unread p) (snd (run_iteration wr (world p))) in
             process_inv p'
             /\ (_curr_time (player (env (world p'))) = _curr_time (player (env (world p)))
                 \/ (t = Timer
                     /\ _curr_time (player (env (world p')))
                        = (_curr_time (player (env (world p))) + 1)%Z))
             /\ (process_live p -> t <> Querier WriteFails -> process_live p')).
  { intros wr -> . cbv zeta. destruct p as [m reads w].
    destruct (querier_step_inv wr m reads w Hp) as (A & B & C).
    split; [exact A|]. split; [left; exact B|].
    intros Hlive Hwr. apply C; [exact Hlive|]. now destruct wr. }
  assert (Htimer : t = Timer ->
             let p' := mkProcess (main p) (unread p) (snd (in_env timer_turn (world p))) in
             process_inv p'
             /\ (_curr_time (player (env (world p'))) = _curr_time (player (env (world p)))
                 \/ (t = Timer
                     /\ _curr_time (player (env (world p')))
                        = (_curr_time (player (env (world p))) + 1)%Z))
             /\ (process_live p -> t <> Querier WriteFails -> process_live p')).
  { intros ->. cbv zeta. destruct p as [m reads w].
    destruct (timer_step_inv m reads w Hp) as (A & B & C).
    split; [exact A|]. split; [destruct B; auto|auto]. }
  destruct p as [m reads [e [l q r] wi]].
  unfold thread_step. cbn [main unread world] in *.
  destruct m as [todo|buf|t0].
  - (* before a queue_query *)
    destruct t as [|wr|]; [|now apply (Hquerier wr)|now apply Htimer].
    clear Hsame Hquerier Htimer.
    unfold process_inv, process_live in *.
    cbn [main unread world qthread env wire data_lock query_queue] in *.
    destruct Hp as ((done & rest & Hdec & Htodo & Hw) & Htt & Hsrc).
    unfold main_step. cbn [main unread world].
    destruct todo as [|[name cb] todo].
    + cbn [main unread world qthread env wire data_lock query_queue].
      split; [split; [|split; assumption]|split; [now left|]].
      * exists done, rest. split; [exact Hdec|]. split; [discriminate|exact Hw].
      * intros [Hl _] _. split; [exact Hl|exact I].
    + destruct l.
      * rewrite queue_query_waits by reflexivity.
        cbn [main unread world qthread env wire data_lock query_queue].
        split; [split; [|split; assumption]|split; [now left|]].
        -- exists done, rest. split; [exact Hdec|]. split; [discriminate|exact Hw].
        -- intros [Hl _]. discriminate Hl.
      * rewrite queue_query_appends.
        cbn [main unread world qthread env wire data_lock query_queue].
        split; [split; [|split; assumption]|split; [now left|]].
        -- exists done, todo. split.
           ++ rewrite Hdec, (Htodo _ eq_refl), <- !app_assoc. reflexivity.
           ++ split; [now intros todo' [= ->]|].
              now apply wire_ok_enqueue with (e := e) (l := false).
        -- intros _ _. split; [reflexivity|exact I].
  - (* in the read loop *)
    destruct t as [|wr|]; [|now apply (Hquerier wr)|now apply Htimer].
    clear Hsame Hquerier Htimer.
    unfold process_inv, process_live in *.
    cbn [main unread world qthread env wire data_lock query_queue] in *.
    destruct Hp as ((done & rest & Hdec & Htodo & Hw) & Htt & Hsrc).
    assert (Hgood : Forall good q).
    { pose proof startup_commands_good as G. rewrite Hdec in G.
      apply Forall_app in G as [_ G]. now apply Forall_app in G as [G _]. }
    unfold main_step. cbn [main unread world].
    destruct reads as [|rd rs].
    + cbn [main unread world qthread env wire data_lock query_queue].
      split; [split; [|split; assumption]|split; [now left|auto]].
      exists done, rest. auto.
    + destruct (loop_turn_step rd buf e l q r wi Hgood)
        as (t1 & e' & l' & q' & r' & E & (Hc & Ht & Hs) & Hcase & Hlive).
      rewrite E.
      assert (Hinv : forall m',
                 (forall todo, m' <> Starting todo) ->
                 (exists done0 rest0,
                     startup_commands = done0 ++ q' ++ rest0
                     /\ (forall todo, m' = Starting todo -> rest0 = todo)
                     /\ wire_ok done0 (mkWorld e' (mkQuerierThread l' q' r') wi))
                 /\ _total_time (player e') = 0%Z
                 /\ _source (player e') = []).
      { intros m' Hm'. split; [|split; congruence].
        destruct Hcase as [[-> ->]|(c & -> & ->)].
        - exists done, rest. split; [exact Hdec|].
          split; [intros todo Ht'; now destruct (Hm' todo)|].
          now apply wire_ok_env with (e := e) (l := l).
        - exists (done ++ [c]), rest. split.
          + rewrite Hdec, <- !app_assoc. reflexivity.
          + split; [intros todo Ht'; now destruct (Hm' todo)|].
            now apply wire_ok_pop with (e := e) (l := l) (r := r). }
      destruct t1 as [buf'|code|ex|];
        cbn [main unread world qthread env wire data_lock query_queue];
        (split; [apply Hinv; discriminate|split; [left; exact Hc|]]);
        intros [Hl _] _; destruct (Hlive Hl) as [Hl' Hend]; split; assumption.
  - (* past the read loop *)
    destruct t0 as [buf'|code|ex|]; try exact Hsame.
    + destruct t as [|wr|]; [exact Hsame|now apply (Hquerier wr)|now apply Htimer].
    + destruct t as [|wr|]; [exact Hsame|now apply (Hquerier wr)|now apply Htimer].
Qed.

Lemma run_threads_inv (schedule : list thread) (p : Process) :
  process_inv p ->
  process_inv (run_threads schedule p)
  /\ (_curr_time (player (env (world p)))
      <= _curr_time (player (env (world (run_threads schedule p))))
      <= _curr_time (player (env (world p))) + timer_steps schedule)%Z
  /\ (process_live p -> writes_succeed schedule ->
      process_live (run_threads schedule p)).
Proof.
  revert p. induction schedule as [|t schedule IH]; intros p Hp.
  - cbn. split; [assumption|]. split; [unfold timer_steps; cbn; lia|auto].
  - unfold run_threads. cbn [fold_left]. fold (run_threads schedule (thread_step t p)).
    destruct (thread_step_inv t p Hp) as (Hp' & Hc & Hlive).
    destruct (IH _ Hp') as (Hinv & Hb & Hlive'). split; [assumption|].
    split.
    + unfold timer_steps in *. cbn [filter].
      destruct Hc as [Hc|[-> Hc]]; rewrite Hc in Hb.
      * destruct t; cbn [List.length]; lia.
      * cbn [List.length]. lia.
    + intros Hl Hws. inversion Hws as [|t' s' Ht Hs]; subst.
      apply Hlive'; [|exact Hs]. now apply Hlive.
Qed.

Lemma initial_process_inv (reads : list read_result) :
  process_inv (mkProcess (Starting startup_commands) reads initial_world).
Proof.
  unfold process_inv. cbn. repeat split.
  exists [], startup_commands. split; [reflexivity|].
  split; [now intros todo [= ->]|]. left. constructor.
Qed.


(** The process with only the main thread running is [session]. *)
Lemma main_alone_starts (reads : list read_result) :
  run_threads (repeat Main 5) (mkProcess (Starting startup_commands) reads initial_world)
  = mkProcess (Reading []) reads (snd (startup_queries initial_world)).
Proof. reflexivity. Qed.

Lemma ended_stays (n : nat) (t : turn) (rs : list read_result) (w : World) :
  run_threads (repeat Main n) (mkProcess (Ended t) rs w) = mkProcess (Ended t) rs w.
Proof.
  induction n as [|n IH]; [reflexivity|].
  cbn [repeat]. unfold run_threads. cbn [fold_left].
  replace (thread_step Main (mkProcess (Ended t) rs w)) with (mkProcess (Ended t) rs w)
    by now destruct t.
  exact IH.
Qed.

Lemma main_alone_reads (reads : list read_result) (buf : text) (w : World) :
  let p := run_threads (repeat Main (List.length reads)) (mkProcess (Reading buf) reads w) in
  world p = snd (read_loop reads buf w)
  /\ match fst (read_loop reads buf w) with
     | Some t => main p = Ended t
     | None => exists buf', main p = Reading buf'
     end.
Proof.
  revert buf w. induction reads as [|rd rs IH]; intros buf w.
  - cbn. eauto.
  - cbn [List.length repeat read_loop]. unfold run_threads. cbn [fold_left].
    fold (run_threads (repeat Main (List.length rs))).
    unfold thread_step. cbn [main]. unfold main_step. cbn [main unread world].
    destruct (loop_turn rd buf w) as [[buf'|code|ex|] w'] eqn:E.
    + apply IH.
    + rewrite ended_stays. cbn. auto.
    + rewrite ended_stays. cbn. auto.
    + rewrite ended_stays. cbn. auto.
Qed.

(** ** The whole program *)


(** X10. The program never stores a total time or a source: whatever
    arrives and however the threads interleave, [total_time] is 0 and
    [source] is empty. *)
Theorem program_never_sets_length_or_source
        (schedule : list thread) (reads : list read_result) :
  _total_time (player (env (world (program schedule reads)))) = 0%Z
  /\ _source (player (env (world (program schedule reads)))) = [].
Proof.
  destruct (run_threads_inv schedule _ (initial_process_inv reads))
    as [(_ & Ht & Hs) _].
  split; assumption.
Qed.



(** ** The flag and the transport *)

(** X13. While the flag is set, no command is in flight: every line that
    was written to the transport has been answered for by the removal of a
    command of that line from the head of the queue.  So the querier thread,
    which only writes when the flag is set, never has two commands
    outstanding and never repeats one. *)
Theorem flag_set_means_nothing_in_flight
        (ops : list qop) (e : Env) (wi : list text) :
  let s := run_ops ops (mkWorld e QuerierThread_init wi) no_history in
  ready_to_query (qthread (fst s)) = true -> in_flight (snd s) = 0%nat.
Proof.
  cbv zeta. intros Hr.
  assert (I : queue_inv (mkWorld e QuerierThread_init wi) no_history).
  { split; [now left|discriminate]. }
  apply (queue_inv_run ops) in I. destruct I as [[E|(Hf & _)] _].
  - unfold in_flight. now rewrite E.
  - congruence.
Qed.

(** ** The timer *)

(** X14. [n] turns of the timer move the current time by [n] seconds while
    the play state is [play] and not at all otherwise; volume, title, play
    state, total time and source are never touched. *)
Theorem timer_counts_seconds_while_playing (n : nat) (e : Env) :
  let p := player e in
  player (timer_turns n e)
  = if PlayerState.eqb (_playstate p) PlayerState.play
    then with_curr_time (_curr_time p + Z.of_nat n) p
    else p.
Proof.
  cbv zeta. revert e. induction n as [|n IH]; intros e.
  - cbn [timer_turns Z.of_nat]. destruct e as [[v t s c tt src] out]. cbn.
    unfold with_curr_time. cbn. rewrite Z.add_0_r. now destruct (PlayerState.eqb s _).
  - cbn [timer_turns]. rewrite IH.
    destruct (timer_turn_step e) as (e' & E & Ht & Hs & Hti & Hv & Hp & Hc).
    rewrite E. cbn [snd]. rewrite Hp.
    destruct e as [[v t s c tt src] out], e' as [[v' t' s' c' tt' src'] out'].
    cbn in *. subst.
    destruct (PlayerState.eqb _ PlayerState.play); unfold with_curr_time; cbn;
      [f_equal; lia|reflexivity].
Qed.

(** ** Line assembly *)

Lemma lstrip_with_snoc (p : ascii -> bool) (c : ascii) (s : text) :
  p c = true ->
  lstrip_with p (s ++ [c])
  = match lstrip_with p s with
    | [] => []
    | l => l ++ [c]
    end.
Proof.
  intros Hc. induction s as [|a s IH]; cbn.
  - now rewrite Hc.
  - destruct (p a); [exact IH|reflexivity].
Qed.

(** A character of the stripped class at the end makes no difference. *)
Lemma strip_with_snoc (p : ascii -> bool) (c : ascii) (s : text) :
  p c = true -> strip_with p (s ++ [c]) = strip_with p s.
Proof.
  intros Hc. unfold strip_with. rewrite (lstrip_with_snoc p c s Hc).
  destruct (lstrip_with p s) as [|a l]; [reflexivity|].
  rewrite rev_app_distr. cbn [rev app]. cbn [lstrip_with]. now rewrite Hc.
Qed.

Lemma lstrip_with_all (p : ascii -> bool) (s : text) :
  forallb p s = true -> lstrip_with p s = [].
Proof.
  induction s as [|a s IH]; cbn; [reflexivity|].
  intros H. apply andb_true_iff in H as [-> H]. now apply IH.
Qed.

(** X15. A line that ends with carriage return and newline is handled
    exactly as the same line with a bare newline. *)
Theorem crlf_is_lf (data buf : text) (w : World) :
  loop_turn (Data (data ++ [carriage_return; newline])) buf w
  = loop_turn (Data (data ++ [newline])) buf w.
Proof.
  unfold loop_turn.
  rewrite !app_assoc, !rev_app_distr. cbn [rev app].
  cbn [negb Ascii.eqb]. rewrite Ascii.eqb_refl. cbn [negb].
  unfold decode_ascii. rewrite !forallb_app.
  cbn [forallb]. replace (is_ascii carriage_return) with true by reflexivity.
  replace (is_ascii newline) with true by reflexivity. cbn [andb].
  destruct (forallb is_ascii buf && forallb is_ascii data); cbn [andb]; [|reflexivity].
  assert (E : strip ((buf ++ data) ++ [carriage_return; newline])
              = strip ((buf ++ data) ++ [newline])).
  { unfold strip.
    change ((buf ++ data) ++ [carriage_return; newline])
      with ((buf ++ data) ++ [carriage_return] ++ [newline]).
    rewrite app_assoc.
    now rewrite !strip_with_snoc by reflexivity. }
  now rewrite E.
Qed.

(** X16. A line of nothing but ASCII whitespace is dropped: the loop goes
    on with an empty buffer and nothing else has changed. *)
Theorem blank_line_is_dropped (data buf : text) (w : World) :
  forallb (fun c => is_space c && is_ascii c) (buf ++ data) = true ->
  loop_turn (Data (data ++ [newline])) buf w = (Next [], w).
Proof.
  intros H.
  assert (Hs : forallb is_space (buf ++ data) = true
               /\ forallb is_ascii (buf ++ data) = true).
  { rewrite !forallb_forall in *.
    split; intros c Hc; apply H in Hc; now apply andb_true_iff in Hc. }
  destruct Hs as [Hsp Has].
  unfold loop_turn.
  rewrite app_assoc, rev_app_distr. cbn [rev app].
  rewrite Ascii.eqb_refl. cbn [negb].
  unfold decode_ascii. rewrite forallb_app, Has. cbn.
  unfold strip. rewrite (strip_with_snoc is_space newline _ eq_refl).
  unfold strip_with. rewrite (lstrip_with_all is_space _ Hsp). reflexivity.
Qed.

(** X17. A complete line with a byte that is not ASCII ends the loop:
    [decode] raises [UnicodeDecodeError], which nothing catches, before the
    line is looked at. *)
Theorem non_ascii_line_ends_the_loop (data buf s : text) (w : World) :
  buf ++ data = s ++ [newline] ->
  forallb is_ascii s = false ->
  loop_turn (Data data) buf w = (Uncaught UnicodeDecodeError, w).
Proof.
  intros E H. unfold loop_turn. rewrite E, rev_app_distr. cbn [rev app].
  rewrite Ascii.eqb_refl. cbn [negb].
  unfold decode_ascii. now rewrite forallb_app, H.
Qed.

(** X18. How the transport cuts a line into reads does not matter: a read
    that leaves the buffer without a final newline, followed by another, is
    the same as one read of both pieces. *)
Theorem reads_can_be_split (a b buf : text) (script : list read_result) (w : World) :
  buf ++ a <> [] ->
  last (buf ++ a) newline <> newline ->
  read_loop (Data a :: Data b :: script) buf w
  = read_loop (Data (a ++ b) :: script) buf w.
Proof.
  intros Hne Hlast.
  cbn [read_loop]. rewrite (unterminated_read_retries buf a w Hne Hlast).
  unfold loop_turn. now rewrite app_assoc.
Qed.

(** ** Host and options *)

Lemma split_on_free (sep : ascii) (s : text) :
  free_of sep s = true -> split_on sep s = [s].
Proof.
  induction s as [|c s IH]; cbn; [reflexivity|].
  intros H. apply andb_true_iff in H as [Hc Hs].
  apply negb_true_iff in Hc. now rewrite Hc, (IH Hs).
Qed.

Lemma split_on_app (sep : ascii) (h rest : text) :
  free_of sep h = true ->
  split_on sep (h ++ sep :: rest) = h :: split_on sep rest.
Proof.
  induction h as [|c h IH]; cbn.
  - now rewrite Ascii.eqb_refl.
  - intros H. apply andb_true_iff in H as [Hc Hs].
    apply negb_true_iff in Hc. now rewrite Hc, (IH Hs).
Qed.

Lemma split_on_length (sep : ascii) (s : text) :
  List.length (split_on sep s) = S (count_occ ascii_dec s sep).
Proof.
  induction s as [|c s IH]; [reflexivity|].
  cbn [split_on count_occ].
  destruct (Ascii.eqb_spec c sep) as [->|Hne].
  - destruct (ascii_dec sep sep); [|contradiction]. cbn. now rewrite IH.
  - destruct (ascii_dec c sep); [contradiction|].
    destruct (split_on sep s) as [|piece pieces]; cbn in *; [discriminate IH|exact IH].
Qed.

(** X19. A host written as a name, a colon and a port, with no other
    colon, is split into exactly that name and that port. *)
Theorem split_host_round_trip (h p : text) :
  free_of ":" h = true -> free_of ":" p = true ->
  split_host (h ++ ":" :: p) = (h, p).
Proof.
  intros Hh Hp. unfold split_host.
  now rewrite (split_on_app ":" h p Hh), (split_on_free ":" p Hp).
Qed.

(** X20. A host with no colon, or with more than one (an IPv6 address, for
    one), is used whole, with port 8080: a port cannot be given for it. *)
Theorem split_host_default (host : text) :
  count_occ ascii_dec host ":" <> 1%nat ->
  split_host host = (host, str "8080").
Proof.
  intros H. unfold split_host.
  pose proof (split_on_length ":" host) as L.
  destruct (split_on ":" host) as [|a [|b [|c l]]]; try reflexivity.
  cbn in L. congruence.
Qed.

Lemma options_loop_port (argv0 : text) (opts : list (text * text)) :
  (forall o a, In (o, a) opts -> is_port_option o = true -> py_int a <> None) ->
  forall (host : text) (p1 p2 : Z) (out : list text),
    match options_loop argv0 opts host p1 out,
          options_loop argv0 (filter (fun oa => negb (is_port_option (fst oa))) opts)
                       host p2 out with
    | (inl (h1, _), o1), (inl (h2, _), o2) => h1 = h2 /\ o1 = o2
    | (inr s1, o1), (inr s2, o2) => s1 = s2 /\ o1 = o2
    | _, _ => False
    end.
Proof.
  induction opts as [|[o a] opts IH]; intros Hv host p1 p2 out.
  - cbn. auto.
  - assert (Hv' : forall o' a', In (o', a') opts -> is_port_option o' = true ->
                                py_int a' <> None).
    { intros o' a' Hin. apply Hv. now right. }
    cbn [filter fst]. destruct (is_port_option o) eqn:Hp; cbn [negb].
    + assert (Ho : o = str "-p" \/ o = str "--port").
      { unfold is_port_option in Hp. apply orb_true_iff in Hp.
        destruct Hp as [Hp|Hp]; apply text_eqb_eq in Hp; auto. }
      assert (Ha : py_int a <> None) by (apply (Hv o a); [now left|assumption]).
      destruct (py_int a) as [v|] eqn:Ea; [|contradiction].
      assert (E : options_loop argv0 ((o, a) :: opts) host p1 out
                  = options_loop argv0 opts host v out).
      { destruct Ho as [->| ->]; cbn [options_loop];
          change (text_eqb (str "-p") (str "-h")) with false;
          change (text_eqb (str "--port") (str "-h")) with false; cbn; now rewrite Ea. }
      rewrite E. apply (IH Hv').
    + cbn [options_loop].
      destruct (text_eqb o (str "-h") || text_eqb o (str "--help")); [auto|].
      destruct (text_eqb o (str "-H") || text_eqb o (str "--host")); [apply (IH Hv')|].
      unfold is_port_option in Hp. rewrite Hp. apply (IH Hv').
Qed.

(** X21. The port option has no effect: as long as its value is a number,
    [main] connects to the same place and prints the same with it as without
    it.  (Its value ends in a variable that nothing reads.) *)
Theorem port_option_is_ignored
        (argv0 : text) (opts : list (text * text))
        (connect : text -> Z -> connect_result) :
  (forall o a, In (o, a) opts -> is_port_option o = true -> py_int a <> None) ->
  main_prelude argv0 (Parsed opts) connect
  = main_prelude argv0
      (Parsed (filter (fun oa => negb (is_port_option (fst oa))) opts)) connect.
Proof.
  intros Hv. unfold main_prelude.
  pose proof (options_loop_port argv0 opts Hv (str "localhost:8080") 9000 9000 []) as H.
  destruct (options_loop argv0 opts _ _ _) as [[[h1 q1]|s1] o1];
    destruct (options_loop argv0 (filter _ opts) _ _ _) as [[[h2 q2]|s2] o2];
    try contradiction; destruct H as [-> ->]; reflexivity.
Qed.

(** ** Normalising a source *)




End Program.

(* ================================================================== *)
(** * Instances

    The properties above at concrete inputs, on CPython 3.11. *)

(** C3, as the spec has it, fails: after the payload "stop state: 0" the
    play state is [PlayerState.end], which is not [PlayerState.stop]. *)
Lemma stop_state_report_is_not_stop :
  let e' := snd (status_change cpython_3_11 (str "stop state: 0") (mkEnv Player_init [])) in
  _playstate (player e') = PlayerState.end_
  /\ _playstate (player e') <> PlayerState.stop.
Proof. vm_compute. split; [reflexivity|discriminate]. Qed.

Lemma stale_ack_changes_nothing_witness :
  query_return_line (str "pause: returned 0 (no error)")
                    (snd (startup_queries initial_world))
  = (Ret true, snd (startup_queries initial_world))
  /\ classify cpython_3_11 (str "pause: returned 0 (no error)")
              (snd (startup_queries initial_world))
     = (Ret tt, snd (startup_queries initial_world)).
Proof.
  apply (stale_ack_changes_nothing cpython_3_11
           (str "pause: returned 0 (no error)")
           [(2%nat, str "0"); (1%nat, str "pause")] (str "pause")).
  - reflexivity.
  - reflexivity.
  - reflexivity.
  - vm_compute. discriminate.
Defined.

Lemma response_without_command_witness :
  query_response (str "hello") initial_world
  = (Raise IndexError,
     mkWorld (mkEnv (player (env initial_world))
                    (stdout (env initial_world)
                     ++ [str "Got query response " ++ str "hello"]))
             (qthread initial_world) (wire initial_world))
  /\ classify cpython_3_11 (str "hello") initial_world
     = (Ret tt,
        mkWorld (mkEnv (player (env initial_world))
                       (stdout (env initial_world)
                        ++ [str "Got query response " ++ str "hello";
                            str "Unmatched line: " ++ [dquote] ++ str "hello" ++ [dquote]]))
                (qthread initial_world) (wire initial_world)).
Proof.
  apply (response_without_command cpython_3_11 (str "hello") initial_world); reflexivity.
Defined.

(** Three callbacks that each print a tag of their own and the line. *)
Lemma responses_reach_callbacks_in_order_witness :
  (queue_query (str "a") (fun line => print (str "first:" ++ line)) ;;
   queue_query (str "b") (fun line => print (str "second:" ++ line)) ;;
   queue_query (str "c") (fun line => print (str "third:" ++ line)) ;;
   query_response (str "x") ;; query_response (str "y") ;; query_response (str "z"))
    initial_world
  = (Ret tt,
     mkWorld (mkEnv Player_init
                    [str "Got query response x"; str "first:x";
                     str "Got query response y"; str "second:y";
                     str "Got query response z"; str "third:z"])
             (mkQuerierThread false [] true) []).
Proof.
  exact (responses_reach_callbacks_in_order
           (str "a") (str "b") (str "c")
           (fun line => print (str "first:" ++ line))
           (fun line => print (str "second:" ++ line))
           (fun line => print (str "third:" ++ line))
           (str "x") (str "y") (str "z") initial_world
           eq_refl eq_refl
           (fun _ => eq_refl) (fun _ => eq_refl) (fun _ => eq_refl)).
Defined.

Lemma unmatched_status_change_only_prints_witness :
  status_change cpython_3_11 (str "play state: 1") (mkEnv Player_init [])
  = (Ret tt, mkEnv (player (mkEnv Player_init []))
                   (stdout (mkEnv Player_init [])
                    ++ [str "Unmatched status change: " ++ str "play state: 1"])).
Proof.
  apply (unmatched_status_change_only_prints cpython_3_11 (str "play state: 1") (mkEnv Player_init [])).
  reflexivity.
Defined.

Lemma status_line_tail_is_ignored_witness :
  classify cpython_3_11 (str "status change: ( " ++ str "play state: 3" ++ str " )" ++ str ":" ++ str " Play")
           initial_world
  = in_env (status_change cpython_3_11 (str "play state: 3")) initial_world.
Proof.
  apply (status_line_tail_is_ignored cpython_3_11 (str "play state: 3") (str " Play") initial_world);
    reflexivity.
Defined.

Lemma matching_ack_removes_head_witness :
  classify cpython_3_11 (str "is_playing: returned 0 (no error)")
           (mkWorld (mkEnv Player_init [])
                    (mkQuerierThread false
                       [(str "is_playing", resp_is_playing); (str "title", resp_title)]
                       false) [])
  = (Ret tt,
     mkWorld (mkEnv (player (mkEnv Player_init []))
                    (stdout (mkEnv Player_init [])
                     ++ [str "QRL removing " ++ str "is_playing"]))
             (mkQuerierThread false [(str "title", resp_title)] true) []).
Proof.
  apply (matching_ack_removes_head cpython_3_11
           (str "is_playing: returned 0 (no error)")
           [(2%nat, str "0"); (1%nat, str "is_playing")]);
    reflexivity.
Defined.

Lemma responses_follow_queue_order_witness :
  (queue_all [(str "is_playing", resp_is_playing); (str "title", resp_title)] ;;
   respond_all [str "0"; str "Movie.mp4"])
    (mkWorld (mkEnv Player_init []) (mkQuerierThread false [] false) [])
  = (Ret tt,
     mkWorld (deliver [(str "is_playing", resp_is_playing); (str "title", resp_title)]
                      [str "0"; str "Movie.mp4"] (mkEnv Player_init []))
             (mkQuerierThread false [] true) []).
Proof.
  apply (responses_follow_queue_order
           [(str "is_playing", resp_is_playing); (str "title", resp_title)]
           [str "0"; str "Movie.mp4"]).
  repeat constructor.
Defined.

Lemma blank_line_is_dropped_witness :
  loop_turn cpython_3_11 (Data (str "  " ++ [carriage_return] ++ [newline])) [] initial_world
  = (Next [], initial_world).
Proof.
  apply (blank_line_is_dropped cpython_3_11 (str "  " ++ [carriage_return]) [] initial_world).
  reflexivity.
Defined.

Lemma non_ascii_line_ends_the_loop_witness :
  loop_turn cpython_3_11 (Data (str "Amelie" ++ ["195"; "169"; newline])) [] initial_world
  = (Uncaught UnicodeDecodeError, initial_world).
Proof.
  apply (non_ascii_line_ends_the_loop cpython_3_11 _ [] (str "Amelie" ++ ["195"; "169"]) initial_world);
    reflexivity.
Defined.

Lemma reads_can_be_split_witness :
  read_loop cpython_3_11 [Data (str "status change: ( audio ");
             Data (str "volume: 115 )" ++ [newline])] [] initial_world
  = read_loop cpython_3_11 [Data (str "status change: ( audio " ++ (str "volume: 115 )" ++ [newline]))]
              [] initial_world.
Proof.
  apply (reads_can_be_split cpython_3_11 (str "status change: ( audio ")
                            (str "volume: 115 )" ++ [newline]) [] [] initial_world).
  - discriminate.
  - vm_compute. discriminate.
Defined.

Lemma split_host_round_trip_witness :
  split_host (str "media-box" ++ ":" :: str "4212") = (str "media-box", str "4212").
Proof.
  apply (split_host_round_trip (str "media-box") (str "4212")); reflexivity.
Defined.

Lemma split_host_default_witness :
  split_host (str "::1") = (str "::1", str "8080").
Proof.
  apply (split_host_default (str "::1")). vm_compute. discriminate.
Defined.

Lemma port_option_is_ignored_witness :
  main_prelude cpython_3_11 (str "vlcc")
    (Parsed [(str "-p", str "9001"); (str "-H", str "media-box:4212")])
    (fun _ _ => Connected)
  = main_prelude cpython_3_11 (str "vlcc")
      (Parsed (filter (fun oa => negb (is_port_option (fst oa)))
                 [(str "-p", str "9001"); (str "-H", str "media-box:4212")]))
      (fun _ _ => Connected).
Proof.
  apply (port_option_is_ignored cpython_3_11 (str "vlcc")
           [(str "-p", str "9001"); (str "-H", str "media-box:4212")]
           (fun _ _ => Connected)).
  intros o a [H|[H|[]]] Hp; inversion H; subst.
  - vm_compute. discriminate.
  - vm_compute in Hp. discriminate Hp.
Defined.



(** C9, on CPython 3.11: a volume of 4301 digits matches the volume
    pattern, and handling it raises [ValueError] and leaves the volume at 0,
    which is not the integer that was reported. *)
Lemma long_volume_report_raises :
  let digits := repeat "1" 4301 in
  let payload := str "audio volume: " ++ digits in
  let e := mkEnv Player_init [] in
  re_match volume_re payload = Some [(1%nat, digits)]
  /\ status_change cpython_3_11 payload e = (Raise ValueError, e)
  /\ spelled digits <> Some (_volume (player e)).
Proof.
  cbv zeta. split; [vm_compute; reflexivity|].
  split; [vm_compute; reflexivity|].
  vm_compute. discriminate.
Qed.

Lemma volume_report_sets_volume_only_witness :
  let e := mkEnv Player_init [] in
  let e' := snd (status_change cpython_3_11 (str "audio volume: -20") e) in
  (str "audio volume: -20" = str "audio volume: " ++ str "-20"
   \/ str "audio volume: -20" = str "audio volume: " ++ str "-20" ++ [newline])
  /\ status_change cpython_3_11 (str "audio volume: -20") e
     = (Ret tt, mkEnv (with_volume (-20) (player e)) (stdout e))
  /\ _volume (player e') = (-20)%Z
  /\ _video_title (player e') = _video_title (player e)
  /\ _playstate (player e') = _playstate (player e)
  /\ _curr_time (player e') = _curr_time (player e)
  /\ _total_time (player e') = _total_time (player e)
  /\ _source (player e') = _source (player e).
Proof.
  exact (volume_report_sets_volume_only cpython_3_11
           (str "audio volume: -20") [(1%nat, str "-20")] (mkEnv Player_init [])
           eq_refl).
Defined.

Lemma status_line_leaves_queue_witness :
  exists payload e',
    group 1 [(1%nat, str "audio volume: 256")] = Some payload
    /\ classify cpython_3_11 (str "status change: ( audio volume: 256 )")
                (snd (startup_queries initial_world))
       = (if long_volume cpython_3_11 payload
          then (Raise ValueError, snd (startup_queries initial_world))
          else (Ret tt, mkWorld e' (qthread (snd (startup_queries initial_world)))
                                (wire (snd (startup_queries initial_world)))))
    /\ same_media (env (snd (startup_queries initial_world))) e'.
Proof.
  apply (status_line_leaves_queue cpython_3_11
           (str "status change: ( audio volume: 256 )")
           [(1%nat, str "audio volume: 256")]).
  reflexivity.
Defined.

Lemma raising_callback_keeps_the_lock_witness :
  let w' := mkWorld (got_response (str "abc") (mkEnv Player_init []))
                    (mkQuerierThread true [] true) [] in
  query_response (str "abc")
    (mkWorld (mkEnv Player_init [])
             (mkQuerierThread false [(str "get_time", resp_get_time cpython_3_11)] false) [])
  = (Raise ValueError, w')
  /\ (forall n c, queue_query n c w' = (Block, w'))
  /\ (forall l, query_response l w' = (Block, w'))
  /\ (forall wr, run_iteration wr w' = (Block, w')).
Proof.
  apply (raising_callback_keeps_the_lock
           (str "abc") (str "get_time") (resp_get_time cpython_3_11) []
           (mkEnv Player_init [])).
  reflexivity.
Defined.


Lemma flag_set_means_nothing_in_flight_witness :
  in_flight (snd (run_ops [Enqueue (str "title") resp_title; DispatchTick Written;
                           ResponseLine (str "Movie.mp4")]
                          (mkWorld (mkEnv Player_init []) QuerierThread_init [])
                          no_history)) = 0%nat.
Proof.
  apply (flag_set_means_nothing_in_flight
           [Enqueue (str "title") resp_title; DispatchTick Written;
            ResponseLine (str "Movie.mp4")]
           (mkEnv Player_init []) []).
  reflexivity.
Defined.

